(** * The claudesidian vault cache and title search, embedded in Rocq

    A shallow embedding of [claudesidian_mcp/vault.py] ([VaultManager]) and
    of [SearchEngine.search] from [claudesidian_mcp/search.py], followed by
    the properties the specification states about them.

    Conventions of the embedding:
    - a Python [str] is a [string]; its characters are the 8-bit characters
      of Rocq strings;
    - a [pathlib.Path] is a record of an anchor flag and its components;
    - Python dictionaries keyed by paths are [gmap Path _], sets of strings
      are [gset string];
    - timestamps ([time.time()], [st_mtime]) are integers, in seconds, and a
      [datetime] is identified with the time stamp it stands for;
    - the operating system is a POSIX system: a file holds the characters
      written to it, and reading in text mode turns every carriage return
      into a newline;
    - a method of [VaultManager] is a computation in the monad [M], which
      threads the manager's fields and the outside world (file system,
      clock, platform) and may raise a Python exception. *)

From Stdlib Require Import ZArith QArith Qcanon Lia Ascii String List Sorted.
From stdpp Require Import base option gmap strings list fin_maps.

Set Warnings "-register-all".

Local Open Scope string_scope.
Local Open Scope Z_scope.

(** ** Strings *)

Definition char_nl : ascii := "010"%char.

Definition char_cr : ascii := "013"%char.

(** The one-character string "\n". *)
Definition nl : string := String char_nl EmptyString.

(** [needle in s] of Python, for a non-empty [needle]. *)
Definition str_contains (needle s : string) : bool :=
  match String.index 0 needle s with
  | Some _ => true
  | None => false
  end.

(** Universal newlines, the translation of text mode on reading: ["\r\n"]
    and a lone ["\r"] become ["\n"]. *)
Fixpoint universal_newlines (s : string) : string :=
  match s with
  | EmptyString => EmptyString
  | String c s' =>
      if Ascii.eqb c char_cr then
        match s' with
        | String c' s'' =>
            if Ascii.eqb c' char_nl then String char_nl (universal_newlines s'')
            else String char_nl (universal_newlines s')
        | EmptyString => String char_nl EmptyString
        end
      else String c (universal_newlines s')
  end.

(** [s[n:]] *)
Definition str_drop (n : nat) (s : string) : string :=
  String.substring n (String.length s - n) s.

(** [s[:n]] *)
Definition str_take (n : nat) (s : string) : string :=
  String.substring 0 (Nat.min n (String.length s)) s.

Fixpoint str_ends_with (suffix s : string) : bool :=
  if String.eqb suffix s then true
  else match s with
       | EmptyString => false
       | String _ s' => str_ends_with suffix s'
       end.

(** ** Paths *)

Record Path := MkPath {
  is_absolute : bool;
  parts : list string;
}.

#[global] Instance Path_eq_dec : EqDecision Path.
Proof. solve_decision. Defined.

#[global] Instance Path_countable : Countable Path.
Proof.
  apply (inj_countable' (fun p => (is_absolute p, parts p))
                        (fun t => MkPath t.1 t.2)).
  by intros [].
Defined.

(** [base / p]: an absolute right operand replaces the left one. *)
Definition joinpath (base p : Path) : Path :=
  if is_absolute p then p
  else MkPath (is_absolute base) (parts base ++ parts p).

Fixpoint strip_prefix (pre l : list string) : option (list string) :=
  match pre, l with
  | [], _ => Some l
  | x :: pre', y :: l' => if String.eqb x y then strip_prefix pre' l' else None
  | _ :: _, [] => None
  end.

(** Position of the last ['.'] of a file name, counted from the left. *)
Fixpoint last_dot (i : nat) (s : string) : option nat :=
  match s with
  | EmptyString => None
  | String c s' =>
      match last_dot (S i) s' with
      | Some j => Some j
      | None => if Ascii.eqb c "."%char then Some i else None
      end
  end.

(** [PurePath.stem]: the final component without its last suffix; a name
    that starts or ends with its only dot has no suffix. *)
Definition stem (p : Path) : string :=
  match last (parts p) with
  | None => ""
  | Some name =>
      match last_dot 0 name with
      | Some i =>
          if ((0 <? i)%nat && (i <? String.length name - 1)%nat)%bool
          then str_take i name else name
      | None => name
      end
  end.

(** ** Python values, exceptions and results *)

Inductive pyval :=
  | PyNone
  | PyBool (b : bool)
  | PyInt (z : Z)
  | PyStr (s : string)
  | PyList (l : list pyval)
  | PyDict (d : list (pyval * pyval)).

(** A Python [dict], in insertion order. *)
Definition pydict := list (pyval * pyval).

Inductive exn :=
  | OSError            (* FileNotFoundError, PermissionError, IsADirectoryError *)
  | UnicodeDecodeError (* a ValueError *)
  | ValueError
  | OverflowError
  | IndexError
  | YAMLError
  | OtherException.    (* any other subclass of Exception *)

(** [except yaml.YAMLError] catches exactly these. *)
Definition is_YAMLError (e : exn) : bool :=
  match e with YAMLError => true | _ => false end.

Inductive Result (A : Type) :=
  | Ok (a : A)
  | Raise (e : exn).
Arguments Ok {A} a.
Arguments Raise {A} e.

(** ** The regular expressions of [VaultManager.__init__] *)

(** [_yaml_pattern = re.compile(r'^---\n(.*?)\n---', re.DOTALL)], used
    through [.match(content)]: the content starts with the opening fence,
    and group 1 is the shortest text followed by a newline and three
    dashes. The result is [group(1)]. *)
Definition _yaml_pattern_match (content : string) : option string :=
  if String.prefix ("---" ++ nl) content then
    let rest := str_drop 4 content in
    match String.index 0 (nl ++ "---") rest with
    | Some k => Some (String.substring 0 k rest)
    | None => None
    end
  else None.

(** [[a-zA-Z0-9_-]] *)
Definition is_tag_char (c : ascii) : bool :=
  let n := nat_of_ascii c in
  ((97 <=? n) && (n <=? 122) || (65 <=? n) && (n <=? 90) ||
   (48 <=? n) && (n <=? 57) || (n =? 95) || (n =? 45))%nat%bool.

Definition emit_tag (acc : option string) (tags : gset string) : gset string :=
  match acc with
  | Some t => if String.eqb t "" then tags else {[ t ]} ∪ tags
  | None => tags
  end.

(** [set(_tag_pattern.findall(content))] for
    [_tag_pattern = re.compile(r'#([a-zA-Z0-9_-]+)')]. [acc] is the run of
    tag characters read since the last ['#'], when there is one. *)
Fixpoint scan_tags (acc : option string) (s : string) : gset string :=
  match s with
  | EmptyString => emit_tag acc ∅
  | String c s' =>
      match acc with
      | Some t =>
          if is_tag_char c then scan_tags (Some (t ++ String c "")) s'
          else emit_tag acc
                 (scan_tags (if Ascii.eqb c "#" then Some "" else None) s')
      | None => scan_tags (if Ascii.eqb c "#" then Some "" else None) s'
      end
  end.

Definition findall_tags (content : string) : gset string :=
  scan_tags None content.

(** [set(_link_pattern.findall(content))] for
    [_link_pattern = re.compile(r'\[\[(.*?)\]\]')]: the dot does not match
    a newline, so a link that is not closed on its line is dropped. [acc]
    is the text read since the last opening brackets, when there are. *)
Fixpoint scan_links (acc : option string) (s : string) : gset string :=
  match s with
  | EmptyString => ∅
  | String c s' =>
      match acc with
      | None =>
          match s' with
          | String c' s'' =>
              if (Ascii.eqb c "[" && Ascii.eqb c' "[")%bool
              then scan_links (Some "") s''
              else scan_links None s'
          | EmptyString => ∅
          end
      | Some t =>
          if Ascii.eqb c char_nl then scan_links None s'
          else
            match s' with
            | String c' s'' =>
                if (Ascii.eqb c "]" && Ascii.eqb c' "]")%bool
                then {[ t ]} ∪ scan_links None s''
                else scan_links (Some (t ++ String c "")) s'
            | EmptyString => ∅
            end
      end
  end.

Definition findall_links (content : string) : gset string :=
  scan_links None content.


(** ** The outside world: file system, clock and platform *)

Inductive NodeKind :=
  | KFile (text : option string) (writable : bool)
      (* [text] is [None] when the bytes are not valid UTF-8 *)
  | KDir.

Record Node := MkNode {
  kind : NodeKind;
  st_ctime : Z;
  st_mtime : Z;
}.

(** The calls of the operating system that the methods make on a path:
    [stat] (behind [exists], [is_file] and [stat]), [mkdir], and [open] for
    writing. *)
Inductive Syscall := SysStat | SysMkdir | SysOpen.

(** What the platform decides. [refuses call p] tells, for a path [p] that
    is not in the file system, that the call fails with an [OSError] other
    than "no such file": a name that is too long, a directory that may not
    be searched or written, a read-only file system. [datetime_range t]
    tells that [datetime.fromtimestamp(t)] succeeds: the local date of [t]
    lies in the years 1 to 9999, less the first day, which depends on the
    time zone. *)
Record Platform := MkPlatform {
  refuses : Syscall -> Path -> bool;
  datetime_range : Z -> bool;
}.

Record World := MkWorld {
  fs : gmap Path Node; (* the entries that the process can reach *)
  clock : Z;           (* what [time.time()] and [datetime.now()] return *)
  read_count : nat;    (* instrumentation: calls of [Path.read_text] *)
  os : Platform;
}.

Definition set_clock (t : Z) (w : World) : World :=
  MkWorld (fs w) t (read_count w) (os w).

Module Vault.

(** *** Data model of [vault.py] *)

Record VaultMetadata := MkVaultMetadata {
  created : Z;
  modified : Z;
  tags : gset string;
  links : gset string;
  backlinks : gset string;
  yaml_frontmatter : pydict;
}.

Record VaultNote := MkVaultNote {
  path : Path;
  title : string;
  content : string;
  metadata : VaultMetadata;
}.

(** The fields of a [VaultManager] that its methods read or assign. The
    thread pool and the compiled patterns are not state. *)
Record VaultManager := MkVaultManager {
  vault_path : Path;
  _metadata_cache : gmap Path VaultMetadata;
  _note_cache : gmap Path string;
  _note_list_cache : option (list VaultNote);
  _note_list_cache_time : Z;
  _cache_ttl : Z;
}.

(** [VaultManager.__init__] *)
Definition VaultManager_init (vault_path : Path) : VaultManager :=
  {| vault_path := vault_path;
     _metadata_cache := ∅;
     _note_cache := ∅;
     _note_list_cache := None;
     _note_list_cache_time := 0;
     _cache_ttl := 30 |}.

(** *** The monad of the methods *)

Definition St : Type := VaultManager * World.

Definition M (A : Type) : Type := St -> Result A * St.

Definition ret {A} (a : A) : M A := fun s => (Ok a, s).

Definition bind {A B} (m : M A) (k : A -> M B) : M B :=
  fun s => match m s with
           | (Ok a, s') => k a s'
           | (Raise e, s') => (Raise e, s')
           end.

Definition raise {A} (e : exn) : M A := fun s => (Raise e, s).

(** [try: body / except Exception as e: handler]. What the body assigned
    before it raised stays assigned. *)
Definition try_except {A} (body : M A) (handler : exn -> M A) : M A :=
  fun s => match body s with
           | (Ok a, s') => (Ok a, s')
           | (Raise e, s') => handler e s'
           end.

Definition lift {A} (r : Result A) : M A := fun s => (r, s).

Definition get_self : M VaultManager := fun s => (Ok (fst s), s).
Definition put_self (self : VaultManager) : M unit := fun s => (Ok tt, (self, snd s)).
Definition get_world : M World := fun s => (Ok (snd s), s).
Definition put_world (w : World) : M unit := fun s => (Ok tt, (fst s, w)).

Notation "'do' x <- c1 ; c2" := (bind c1 (fun x => c2))
  (at level 60, x name, c1 at next level, right associativity).

Fixpoint mapM {A B} (f : A -> M B) (l : list A) : M (list B) :=
  match l with
  | [] => ret []
  | x :: l' => do y <- f x; do ys <- mapM f l'; ret (y :: ys)
  end.

(** *** File system and clock primitives *)

(** [time.time()], [datetime.now()] *)
Definition now : M Z := do w <- get_world; ret (clock w).

(** [os.stat(p)] as [pathlib] 3.11 sees it below [exists] and [is_file]:
    the entry, [None] for "no such file", and an [OSError] where the system
    refuses the call. *)
Definition os_stat (p : Path) : M (option Node) :=
  do w <- get_world;
  match fs w !! p with
  | Some n => ret (Some n)
  | None => if refuses (os w) SysStat p then raise OSError else ret None
  end.

(** [path.exists()] *)
Definition path_exists (p : Path) : M bool :=
  do entry <- os_stat p;
  ret match entry with
      | Some _ => true
      | None => false
      end.

(** [path.is_file()] *)
Definition path_is_file (p : Path) : M bool :=
  do entry <- os_stat p;
  ret match entry with
      | Some (MkNode (KFile _ _) _ _) => true
      | _ => false
      end.

(** [path.stat()] *)
Definition path_stat (p : Path) : M Node :=
  do entry <- os_stat p;
  match entry with
  | Some n => ret n
  | None => raise OSError
  end.

(** [datetime.fromtimestamp(t)]; out of range it raises a [ValueError], an
    [OverflowError] or an [OSError]. *)
Definition fromtimestamp (t : Z) : M Z :=
  do w <- get_world;
  if datetime_range (os w) t then ret t else raise ValueError.

(** [path.read_text(encoding='utf-8')] *)
Definition read_text (p : Path) : M string :=
  do w <- get_world;
  do _ <- put_world (MkWorld (fs w) (clock w) (S (read_count w)) (os w));
  match fs w !! p with
  | Some (MkNode (KFile (Some text) _) _ _) => ret (universal_newlines text)
  | Some (MkNode (KFile None _) _ _) => raise UnicodeDecodeError
  | Some (MkNode KDir _ _) => raise OSError
  | None => raise OSError
  end.

Definition parent (p : Path) : Path :=
  MkPath (is_absolute p) (removelast (parts p)).

(** [path.write_text(content, encoding='utf-8')]: truncates a writable file,
    or creates the file in an existing directory unless the system refuses
    it. The characters are stored as they are. *)
Definition write_text (p : Path) (text : string) : M unit :=
  do w <- get_world;
  let t := clock w in
  match fs w !! p with
  | Some (MkNode (KFile _ true) _ _) =>
      put_world (MkWorld (<[p := MkNode (KFile (Some text) true) t t]> (fs w))
                         t (read_count w) (os w))
  | Some _ => raise OSError
  | None =>
      if refuses (os w) SysOpen p then raise OSError
      else
        match fs w !! parent p with
        | Some (MkNode KDir _ _) =>
            put_world (MkWorld (<[p := MkNode (KFile (Some text) true) t t]> (fs w))
                               t (read_count w) (os w))
        | _ => raise OSError
        end
  end.

(** [p.relative_to(base)] *)
Definition relative_to (p base : Path) : M Path :=
  if Bool.eqb (is_absolute p) (is_absolute base) then
    match strip_prefix (parts base) (parts p) with
    | Some rest => ret (MkPath false rest)
    | None => raise ValueError
    end
  else raise ValueError.

(** Whether [p] lies below [base] and its name matches [*.md]. *)
Definition is_md_below (base p : Path) : bool :=
  Bool.eqb (is_absolute p) (is_absolute base) &&
  match strip_prefix (parts base) (parts p) with
  | Some (_ :: _) => str_ends_with ".md" (default "" (last (parts p)))
  | _ => false
  end.

(** [list(base.rglob("*.md"))], for a [base] that the system lets [stat]:
    the entries below it whose name ends in [.md]. *)
Definition rglob_md (base : Path) : M (list Path) :=
  do w <- get_world;
  ret (List.filter (is_md_below base) (map fst (map_to_list (fs w)))).

(** *** Field assignments *)

Definition with_metadata_cache (c : gmap Path VaultMetadata) (self : VaultManager) :=
  MkVaultManager (vault_path self) c (_note_cache self) (_note_list_cache self)
                 (_note_list_cache_time self) (_cache_ttl self).

Definition with_note_cache (c : gmap Path string) (self : VaultManager) :=
  MkVaultManager (vault_path self) (_metadata_cache self) c (_note_list_cache self)
                 (_note_list_cache_time self) (_cache_ttl self).

Definition with_note_list_cache (l : option (list VaultNote)) (self : VaultManager) :=
  MkVaultManager (vault_path self) (_metadata_cache self) (_note_cache self) l
                 (_note_list_cache_time self) (_cache_ttl self).

Definition with_note_list_cache_time (t : Z) (self : VaultManager) :=
  MkVaultManager (vault_path self) (_metadata_cache self) (_note_cache self)
                 (_note_list_cache self) t (_cache_ttl self).

(** [if key in d: del d[key]] *)
Definition del_if_present {V} (key : Path) (d : gmap Path V) : gmap Path V :=
  match d !! key with
  | Some _ => delete key d
  | None => d
  end.

(** *** Tags *)

(** [c.isspace()] for a character below 256. *)
Definition is_space (c : ascii) : bool :=
  let n := nat_of_ascii c in
  ((9 <=? n) && (n <=? 13) || (28 <=? n) && (n <=? 32) ||
   (n =? 133) || (n =? 160))%nat%bool.

(** [c.lower()] for a character below 256: the ASCII capitals and the
    Latin-1 capitals other than the multiplication sign. *)
Definition lower_char (c : ascii) : ascii :=
  let n := nat_of_ascii c in
  if ((65 <=? n) && (n <=? 90) ||
      (192 <=? n) && (n <=? 222) && negb (n =? 215))%nat%bool
  then ascii_of_nat (n + 32) else c.

(** [s.lower()] *)
Fixpoint str_lower (s : string) : string :=
  match s with
  | EmptyString => EmptyString
  | String c s' => String (lower_char c) (str_lower s')
  end.

(** [s.lstrip()] *)
Fixpoint str_lstrip (s : string) : string :=
  match s with
  | EmptyString => EmptyString
  | String c s' => if is_space c then str_lstrip s' else s
  end.

(** [s.rstrip()] *)
Fixpoint str_rstrip (s : string) : string :=
  match s with
  | EmptyString => EmptyString
  | String c s' =>
      match str_rstrip s' with
      | EmptyString => if is_space c then EmptyString else String c EmptyString
      | r => String c r
      end
  end.

(** [s.strip()] *)
Definition str_strip (s : string) : string := str_rstrip (str_lstrip s).

(** [[a-zA-Z0-9]] *)
Definition is_alnum (c : ascii) : bool :=
  let n := nat_of_ascii c in
  ((97 <=? n) && (n <=? 122) || (65 <=? n) && (n <=? 90) ||
   (48 <=? n) && (n <=? 57))%nat%bool.

(** [_raw_tag_pattern.sub(' ', s)] for
    [_raw_tag_pattern = re.compile(r'[^a-zA-Z0-9]+')]: every longest run of
    other characters becomes one space. [in_run] tells that the previous
    character belonged to such a run. *)
Fixpoint sub_non_alnum (in_run : bool) (s : string) : string :=
  match s with
  | EmptyString => EmptyString
  | String c s' =>
      if is_alnum c then String c (sub_non_alnum false s')
      else if in_run then sub_non_alnum true s'
      else String " " (sub_non_alnum true s')
  end.

(** [s.split()]: the words between runs of white space. [word] is the
    word read so far. *)
Fixpoint split_ws (word : string) (s : string) : list string :=
  match s with
  | EmptyString => if String.eqb word "" then [] else [word]
  | String c s' =>
      if is_space c
      then (if String.eqb word "" then split_ws "" s' else word :: split_ws "" s')
      else split_ws (word ++ String c "") s'
  end.

(** The special cases of [normalize_tag]. *)
Definition replacements (tag : string) : option string :=
  if String.eqb tag "c++" then Some "cpp"
  else if String.eqb tag "c#" then Some "csharp"
  else if String.eqb tag ".net" then Some "dotnet"
  else None.

(** [VaultManager.normalize_tag] *)
Definition normalize_tag (tag : string) : string :=
  let tag := str_lower (str_strip tag) in
  match replacements tag with
  | Some replacement => replacement
  | None =>
      let words := split_ws "" (sub_non_alnum false tag) in
      String.concat "_" (List.filter (fun word => negb (String.eqb word "")) words)
  end.

(** [VaultManager.normalize_tags] *)
Definition normalize_tags (tags : list string) : list string :=
  map normalize_tag (List.filter (fun tag => negb (String.eqb tag "")) tags).

(** *** Directories *)

(** [path.mkdir(parents=True, exist_ok=True)] on the file system: the
    directories on the way that are missing are created at time [t], from
    the top; it stops at a regular file on the way and at a directory that
    the system refuses to create, and what was created before stays.
    [above] are the components already walked; the result tells whether
    the last directory is there. *)
Fixpoint mkdir_parents (refused : Path -> bool) (anchor : bool)
    (above todo : list string) (t : Z) (files : gmap Path Node)
    : gmap Path Node * bool :=
  match todo with
  | [] => (files, true)
  | name :: todo' =>
      let here := MkPath anchor (above ++ [name]) in
      match files !! here with
      | Some (MkNode KDir _ _) =>
          mkdir_parents refused anchor (above ++ [name]) todo' t files
      | Some (MkNode (KFile _ _) _ _) => (files, false)
      | None =>
          if refused here then (files, false)
          else mkdir_parents refused anchor (above ++ [name]) todo' t
                 (<[here := MkNode KDir t t]> files)
      end
  end.

(** [path.mkdir(parents=True, exist_ok=True)] *)
Definition mkdir (p : Path) : M unit :=
  do w <- get_world;
  let outcome := mkdir_parents (refuses (os w) SysMkdir) (is_absolute p) []
                   (parts p) (clock w) (fs w) in
  do _ <- put_world (MkWorld (fst outcome) (clock w) (read_count w) (os w));
  if snd outcome then ret tt else raise OSError.

(** *** The methods of [VaultManager]

    Writes to [sys.stderr] are not modelled. *)

Section Methods.

(** [yaml.safe_load] of PyYAML: the parsed document, a [yaml.YAMLError], or
    another exception (PyYAML raises [ValueError] on a date such as
    [2001-13-45]). *)
Variable safe_load : string -> Result pyval.

(** [re.search(rf"(#+\s*{re.escape(escaped_heading)}.*\n)", existing_content,
    re.IGNORECASE)], as a function of the heading and the searched text:
    [match.end()] when there is a match. *)
Variable heading_search : string -> string -> option nat.

(** [VaultManager._read_file] *)
Definition _read_file (p : Path) : M (option string) :=
  do self <- get_self;
  match _note_cache self !! p with
  | Some cached => ret (Some cached)
  | None =>
      try_except
        (do text <- read_text p;
         do self <- get_self;
         do _ <- put_self (with_note_cache (<[p := text]> (_note_cache self)) self);
         ret (Some text))
        (fun _ => ret None)
  end.

(** [VaultManager._write_file] *)
Definition _write_file (p : Path) (text : string) : M unit :=
  write_text p text.

(** [VaultManager.invalidate_cache], on the fields of the manager. *)
Definition invalidated (p : option Path) (self : VaultManager) : VaultManager :=
  match p with
  | None => with_note_list_cache None (with_metadata_cache ∅ self)
  | Some p =>
      let self := with_metadata_cache (del_if_present p (_metadata_cache self)) self in
      match _note_list_cache self with
      | Some (n :: l) =>
          with_note_list_cache
            (Some (List.filter (fun note => negb (bool_decide (path note = p)))
                               (n :: l))) self
      | _ => self
      end
  end.

(** [VaultManager.invalidate_cache] *)
Definition invalidate_cache (p : option Path) : M unit :=
  do self <- get_self;
  put_self (invalidated p self).

(** Lines 305 to 319 of [_get_metadata]: the value of [yaml_frontmatter]. *)
Definition frontmatter_of (text : string) : Result pydict :=
  match _yaml_pattern_match text with
  | Some yaml_content =>
      if (str_contains "{{" yaml_content || str_contains "{%" yaml_content)%bool
      then Ok [(PyStr "_is_template", PyBool true)]
      else
        match safe_load yaml_content with
        | Ok (PyDict parsed) => Ok parsed
        | Ok _ => Ok []
        | Raise e =>
            if is_YAMLError e
            then Ok [(PyStr "_raw_frontmatter", PyStr yaml_content)]
            else Raise e
        end
  | None => Ok []
  end.

(** [VaultManager._get_metadata] *)
Definition _get_metadata (p : Path) (text : string) : M VaultMetadata :=
  do self <- get_self;
  match _metadata_cache self !! p with
  | Some cached => ret cached
  | None =>
      try_except
        (do stats <- path_stat p;
         do created <- fromtimestamp (st_ctime stats);
         do modified <- fromtimestamp (st_mtime stats);
         do yaml_frontmatter <- lift (frontmatter_of text);
         let tags := findall_tags text in
         let links := findall_links text in
         let backlinks := ∅ in
         let metadata :=
           MkVaultMetadata created modified tags links backlinks yaml_frontmatter in
         do self <- get_self;
         do _ <- put_self (with_metadata_cache (<[p := metadata]> (_metadata_cache self)) self);
         ret metadata)
        (fun _ =>
           do t1 <- now;
           do t2 <- now;
           ret (MkVaultMetadata t1 t2 ∅ ∅ ∅ []))
  end.

(** [VaultManager.get_note] *)
Definition get_note (p : Path) : M (option VaultNote) :=
  try_except
    (do self <- get_self;
     let absolute_path := joinpath (vault_path self) p in
     do ex <- path_exists absolute_path;
     do isf <- (if ex then path_is_file absolute_path else ret false);
     if (negb ex || negb isf)%bool then ret None
     else
       do text <- _read_file absolute_path;
       match text with
       | None => ret None
       | Some text =>
           do metadata <- _get_metadata absolute_path text;
           ret (Some (MkVaultNote p (stem p) text metadata))
       end)
    (fun _ => ret None).

(** [if heading:] *)
Definition truthy (heading : option string) : option string :=
  match heading with
  | Some h => if String.eqb h "" then None else Some h
  | None => None
  end.

(** Lines 185 to 202 of [update_note]: the text to write. *)
Definition new_content_of (existing_content text mode : string)
    (heading : option string) : string :=
  match truthy heading with
  | Some heading =>
      match heading_search heading existing_content with
      | Some insert_pos =>
          str_take insert_pos existing_content ++ nl ++ text ++ nl ++
          str_drop insert_pos existing_content
      | None =>
          existing_content ++ nl ++ nl ++ "## " ++ heading ++ nl ++ text ++ nl
      end
  | None =>
      if String.eqb mode "append" then existing_content ++ nl ++ text
      else if String.eqb mode "prepend" then text ++ nl ++ existing_content
      else text
  end.

(** [VaultManager.update_note] *)
Definition update_note (p : Path) (text mode : string) (heading : option string)
    : M bool :=
  do self <- get_self;
  let absolute_path := joinpath (vault_path self) p in
  do ex <- path_exists absolute_path;
  if negb ex then ret false
  else
    try_except
      (do existing_content <- _read_file absolute_path;
       match existing_content with
       | None => ret false
       | Some existing_content =>
           let new_content := new_content_of existing_content text mode heading in
           do _ <- _write_file absolute_path new_content;
           do rel <- relative_to absolute_path (vault_path self);
           do _ <- invalidate_cache (Some rel);
           do self <- get_self;
           do _ <- put_self (with_note_cache (del_if_present p (_note_cache self)) self);
           ret true
       end)
      (fun _ => ret false).

(** [process_file] of [get_all_notes], without the progress bar. *)
Definition process_file (file_path : Path) : M (option VaultNote) :=
  try_except
    (do self <- get_self;
     do rel <- relative_to file_path (vault_path self);
     get_note rel)
    (fun _ => ret None).

(** [VaultManager.get_all_notes]. The tasks that [asyncio.gather] runs
    under the semaphore work on distinct files; they are run one after the
    other, in the order of [md_files]. *)
Definition get_all_notes : M (list VaultNote) :=
  do self <- get_self;
  do t <- now;
  let fresh :=
    match _note_list_cache self with
    | Some l => if t - _note_list_cache_time self <? _cache_ttl self then Some l else None
    | None => None
    end in
  match fresh with
  | Some l => ret l
  | None =>
      do md_files <- rglob_md (vault_path self);
      do results <- mapM process_file md_files;
      let notes := omap id results in
      do self <- get_self;
      do _ <- put_self (with_note_list_cache (Some notes) self);
      do t <- now;
      do self <- get_self;
      do _ <- put_self (with_note_list_cache_time t self);
      ret notes
  end.


(** [yaml.dump(metadata, default_flow_style=False)] of PyYAML. *)
Variable yaml_dump : pydict -> string.

(** [VaultManager.ensure_folder] *)
Definition ensure_folder (p : Path) : M bool :=
  try_except
    (do _ <- mkdir p;
     ret true)
    (fun _ => ret false).

(** [VaultManager.create_note]; [if metadata:] holds for a dictionary that
    is not empty. *)
Definition create_note (p : Path) (text : string) (metadata : option pydict)
    : M (option VaultNote) :=
  do self <- get_self;
  let absolute_path := joinpath (vault_path self) p in
  try_except
    (do _ <- ensure_folder (parent absolute_path);
     let full_content :=
       match metadata with
       | Some (item :: items) =>
           "---" ++ nl ++ yaml_dump (item :: items) ++ "---" ++ nl ++ text
       | _ => text
       end in
     do _ <- _write_file absolute_path full_content;
     do rel <- relative_to absolute_path (vault_path self);
     do note <- get_note rel;
     ret note)
    (fun _ => ret None).

(** The loop of [get_notes_in_folder] over the files found; [notes] is the
    list built so far. *)
Fixpoint folder_loop (files : list Path) (notes : list VaultNote)
    : M (list VaultNote) :=
  match files with
  | [] => ret notes
  | file_path :: files' =>
      do notes <-
        try_except
          (do self <- get_self;
           do rel <- relative_to file_path (vault_path self);
           do note <- get_note rel;
           ret match note with
               | Some note => (notes ++ [note])%list
               | None => notes
               end)
          (fun _ => ret notes);
      folder_loop files' notes
  end.

(** [VaultManager.get_notes_in_folder] *)
Definition get_notes_in_folder (folder_path : Path) : M (list VaultNote) :=
  do self <- get_self;
  let folder_full_path := joinpath (vault_path self) folder_path in
  do files <- rglob_md folder_full_path;
  folder_loop files [].

End Methods.

End Vault.

Module Search.

(** *** Scores

    A score of rapidfuzz is a float between 0 and 100; it is modelled as
    the rational number that the float is. *)

Definition Qc_leb (a b : Qc) : bool := Qle_bool a b.

Definition Qc_max (a b : Qc) : Qc := if Qc_leb a b then b else a.

(** A match of [process.extract]: [(choice, score, index)]. *)
Definition Match : Type := string * Qc * nat.

Definition match_score (m : Match) : Qc := snd (fst m).

(** *** [rapidfuzz.process.extract]

    [process.extract(query, choices, scorer=scorer, limit=limit)] scores
    every choice, orders the matches by falling score, matches of one score
    by rising index, and keeps the first [limit] of them ([limit=None]
    keeps all). On a negative limit the compiled module raises a
    [RuntimeError]. *)

Fixpoint insert_match (m : Match) (l : list Match) : list Match :=
  match l with
  | [] => [m]
  | m' :: l' =>
      if Qc_leb (match_score m') (match_score m) then m :: m' :: l'
      else m' :: insert_match m l'
  end.

Definition sort_matches (l : list Match) : list Match :=
  foldr insert_match [] l.

(** All the matches, in the order of [process.extract]. *)
Definition ranked (scorer : string -> string -> Qc) (query : string)
    (choices : list string) : list Match :=
  sort_matches (imap (fun i choice => (choice, scorer query choice, i)) choices).

Definition process_extract (scorer : string -> string -> Qc) (query : string)
    (choices : list string) (limit : option Z) : Result (list Match) :=
  match limit with
  | Some n =>
      if n <? 0 then Raise OtherException
      else Ok (take (Z.to_nat n) (ranked scorer query choices))
  | None => Ok (ranked scorer query choices)
  end.

(** *** [SearchEngine.search] *)

(** A result of [search]: the dictionary with the keys ["title"],
    ["score"] and ["content"]. *)
Record SearchHit := MkSearchHit {
  title : string;
  score : Qc;
  content : string;
}.

(** [content[:200] + "..." if len(content) > 200 else content], the
    expression of [search] and of [MemoryManager.search_relevant_memories]. *)
Definition preview (text : string) : string :=
  if (200 <? String.length text)%nat then str_take 200 text ++ "..." else text.

Section Engine.

(** [fuzz.partial_ratio] *)
Variable scorer : string -> string -> Qc.

(** The loop of [search] over the matches; [self.index[idx]] raises an
    [IndexError] out of range. *)
Fixpoint collect (index : list (string * string)) (threshold : Qc)
    (matches : list Match) : Result (list SearchHit) :=
  match matches with
  | [] => Ok []
  | (match_title, score, idx) :: matches' =>
      if Qc_leb threshold score then
        match index !! idx with
        | Some (_, text) =>
            match collect index threshold matches' with
            | Ok results => Ok (MkSearchHit match_title score (preview text) :: results)
            | Raise e => Raise e
            end
        | None => Raise IndexError
        end
      else collect index threshold matches'
  end.

(** [SearchEngine.search], as a function of [self.index]. *)
Definition search (index : list (string * string)) (query : string)
    (threshold : Qc) (max_results : Z) : Result (list SearchHit) :=
  let titles := map fst index in
  match process_extract scorer query titles (Some max_results) with
  | Ok matches => collect index threshold matches
  | Raise e => Raise e
  end.

End Engine.

(** *** A reference [fuzz.partial_ratio]

    The scorer of rapidfuzz 3 on plain strings, without preprocessing:
    [ratio] is the normalised Indel similarity, [(1 - dist / (len1 + len2))
    * 100] for [dist = len1 + len2 - 2 * lcs], computed in double
    precision, and [partial_ratio] is the best [ratio] of the shorter
    string against the windows of the longer one. *)

(** The binary exponent of [p / q]: the [k] with [2^k <= p / q < 2^(k+1)]. *)
Definition binade (p q : positive) : Z :=
  let d := Z.log2 (Z.pos p) - Z.log2 (Z.pos q) in
  if Z.pos q * 2 ^ Z.max 0 d <=? Z.pos p * 2 ^ Z.max 0 (- d) then d else d - 1.

(** [p / q] rounded to 53 significant bits, to the nearest and on a tie to
    the even one. *)
Definition round_pos (p q : positive) : Q :=
  let shift := 52 - binade p q in
  let num := Z.pos p * 2 ^ Z.max 0 shift in
  let den := Z.pos q * 2 ^ Z.max 0 (- shift) in
  let n0 := num / den in
  let r := num mod den in
  let n := if 2 * r <? den then n0
           else if den <? 2 * r then n0 + 1
           else if Z.even n0 then n0 else n0 + 1 in
  (n * 2 ^ Z.max 0 (- shift)) # Z.to_pos (2 ^ Z.max 0 shift).

(** The double nearest to [x], the result of an operation of IEEE 754
    binary64 whose exact value is [x]; [x] is in the range of the normal
    doubles, as the scores and their intermediate values are. *)
Definition round_double (x : Qc) : Qc :=
  match Qnum x with
  | Z0 => Qc_of_Z 0
  | Zpos p => Q2Qc (round_pos p (Qden x))
  | Zneg p => (- Q2Qc (round_pos p (Qden x)))%Qc
  end.

(** One row of the longest-common-subsequence table: from the row of [a'],
    the row of [x :: a'], both indexed by the suffixes of [b]. *)
Fixpoint lcs_row (x : ascii) (b : list ascii) (prev : list nat) : list nat :=
  match b with
  | [] => [0%nat]
  | y :: b' =>
      let row' := lcs_row x b' (tail prev) in
      (if Ascii.eqb x y then S (hd 0%nat (tail prev))
       else Nat.max (hd 0%nat prev) (hd 0%nat row')) :: row'
  end.

Definition lcs_table (a b : list ascii) : list nat :=
  foldr (fun x prev => lcs_row x b prev) (repeat 0%nat (S (length b))) a.

Definition lcs (a b : list ascii) : nat := hd 0%nat (lcs_table a b).

(** [fuzz.ratio(s1, s2)]: [norm_dist = dist / maximum] (0 for two empty
    strings), [norm_sim = 1.0 - norm_dist], and the score [norm_sim * 100],
    each a floating point operation. *)
Definition ratio (s1 s2 : list ascii) : Qc :=
  let maximum := (length s1 + length s2)%nat in
  let dist := (maximum - 2 * lcs s1 s2)%nat in
  let norm_dist :=
    if (maximum =? 0)%nat then Qc_of_Z 0
    else round_double (Q2Qc (Z.of_nat dist # Pos.of_nat maximum)) in
  let norm_sim := round_double (Qc_of_Z 1 - norm_dist)%Qc in
  round_double (norm_sim * Qc_of_Z 100)%Qc.

Definition char_in (s : list ascii) (c : option ascii) : bool :=
  match c with
  | Some c => existsb (Ascii.eqb c) s
  | None => false
  end.

(** The windows of [s2] that [_partial_ratio_impl] compares with [s1]:
    the proper prefixes shorter than [s1], the windows as long as [s1], and
    the suffixes no longer than [s1]; a window is skipped when its last
    character (for a suffix, its first) does not occur in [s1]. *)
Definition windows (s1 s2 : list ascii) : list (list ascii) :=
  let len1 := length s1 in
  let len2 := length s2 in
  map (fun i => take i s2)
      (List.filter (fun i => char_in s1 (s2 !! (i - 1)%nat)) (seq 1 (len1 - 1))) ++
  map (fun i => take len1 (drop i s2))
      (List.filter (fun i => char_in s1 (s2 !! (i + len1 - 1)%nat)) (seq 0 (len2 - len1))) ++
  map (fun i => drop i s2)
      (List.filter (fun i => char_in s1 (s2 !! i)) (seq (len2 - len1) len1)).

(** [_partial_ratio_impl(s1, s2)], for [len(s1) <= len(s2)]. *)
Definition partial_ratio_impl (s1 s2 : list ascii) : Qc :=
  foldr Qc_max (Qc_of_Z 0) (map (ratio s1) (windows s1 s2)).

(** [fuzz.partial_ratio(s1, s2)] *)
Definition partial_ratio (s1 s2 : string) : Qc :=
  let l1 := list_ascii_of_string s1 in
  let l2 := list_ascii_of_string s2 in
  match l1, l2 with
  | [], [] => Qc_of_Z 100
  | _, _ =>
      let (shorter, longer) :=
        if (length l1 <=? length l2)%nat then (l1, l2) else (l2, l1) in
      let res := partial_ratio_impl shorter longer in
      if (negb (bool_decide (res = Qc_of_Z 100)) && (length l1 =? length l2)%nat)%bool
      then Qc_max res (partial_ratio_impl longer shorter)
      else res
  end.

End Search.

(** * Vocabulary of the statements *)

Module VaultSpec.
Import Vault.

(** The metadata that the specification calls [extract(path, content)]: a
    function of the text and of the [stat] of the file, defined when the
    [stat], the time stamps and the front matter raise nothing. [in_range]
    is the range of [datetime.fromtimestamp] on the platform. *)
Definition extract (safe_load : string -> Result pyval) (in_range : Z -> bool)
    (stat : option Node) (text : string) : option VaultMetadata :=
  match stat with
  | Some stats =>
      if (in_range (st_ctime stats) && in_range (st_mtime stats))%bool
      then match frontmatter_of safe_load text with
           | Ok fm => Some (MkVaultMetadata (st_ctime stats) (st_mtime stats)
                              (findall_tags text) (findall_links text) ∅ fm)
           | Raise _ => None
           end
      else None
  | None => None
  end.

(** The degenerate metadata of the [except] branch of [_get_metadata]. *)
Definition degenerate (t : Z) : VaultMetadata :=
  MkVaultMetadata t t ∅ ∅ ∅ [].

(** [{"_is_template": True}] *)
Definition template_marker : pydict := [(PyStr "_is_template", PyBool true)].

(** [{"_raw_frontmatter": yaml_content}] *)
Definition raw_frontmatter (yaml_content : string) : pydict :=
  [(PyStr "_raw_frontmatter", PyStr yaml_content)].

(** Whether a directory entry is a regular file, and its text. *)
Definition is_file (entry : option Node) : bool :=
  match entry with
  | Some (MkNode (KFile _ _) _ _) => true
  | _ => false
  end.

Definition file_text (entry : option Node) : option string :=
  match entry with
  | Some (MkNode (KFile text _) _ _) => text
  | _ => None
  end.

(** What [Path.read_text] returns for the entry: its text, with the
    newlines translated. *)
Definition text_read (entry : option Node) : option string :=
  universal_newlines <$> file_text entry.

(** A path that the system lets [stat]: it is there, or it is reported as
    missing. *)
Definition reachable (w : World) (p : Path) : Prop :=
  fs w !! p = None -> refuses (os w) SysStat p = false.

(** The world after one more call of [Path.read_text]. *)
Definition one_more_read (w : World) : World :=
  MkWorld (fs w) (clock w) (S (read_count w)) (os w).

(** The write of [update_note]: the file at [p] holds [text] and its time
    stamps are the current time. *)
Definition written (p : Path) (text : string) (w : World) : World :=
  MkWorld (<[p := MkNode (KFile (Some text) true) (clock w) (clock w)]> (fs w))
          (clock w) (read_count w) (os w).

(** What every step of a vault scan keeps: it raises nothing and leaves the
    files, the clock, the settings of the manager and the stored listing
    alone. *)
Definition scan_step {A} (m : M A) : Prop :=
  forall (self : VaultManager) (w : World),
    exists (a : A) (self' : VaultManager) (w' : World),
      m (self, w) = (Ok a, (self', w')) /\
      fs w' = fs w /\ clock w' = clock w /\
      vault_path self' = vault_path self /\
      _cache_ttl self' = _cache_ttl self /\
      _note_list_cache self' = _note_list_cache self /\
      _note_list_cache_time self' = _note_list_cache_time self.


(** The text that [create_note] writes. *)
Definition full_content_of (yaml_dump : pydict -> string) (text : string)
    (metadata : option pydict) : string :=
  match metadata with
  | Some (item :: items) =>
      "---" ++ nl ++ yaml_dump (item :: items) ++ "---" ++ nl ++ text
  | _ => text
  end.

(** *** A small vault for the examples *)

(** [yaml.safe_load] on a document that is one plain word, such as
    [hello]: PyYAML returns the word, a [str]. *)
Definition safe_load_word (document : string) : Result pyval :=
  Ok (PyStr document).

(** A parser that raises on every document. *)
Definition safe_load_raises (e : exn) (document : string) : Result pyval :=
  Raise e.

(** A heading pattern that matches nowhere. *)
Definition no_heading (heading text : string) : option nat := None.

Definition vault_root : Path := MkPath true ["home"; "vault"].

Definition note_n : Path := MkPath false ["n.md"].

(** A name of more than 255 characters, which Linux refuses. *)
Definition name_too_long (p : Path) : bool :=
  existsb (fun name => negb (String.length name <=? 255)%nat) (parts p).

(** The range of [datetime.fromtimestamp] in the time zone UTC: from the
    second day of year 1 to the end of year 9999. *)
Definition utc_range (t : Z) : bool :=
  (-62135510400 <=? t) && negb (253402300800 <=? t).

(** A Linux system in the time zone UTC that refuses over-long names and
    nothing else. *)
Definition linux_utc : Platform :=
  MkPlatform (fun _ p => name_too_long p) utc_range.

(** The vault directory with the one note [n.md], at time [t]. *)
Definition world_with (text : string) (t : Z) : World :=
  MkWorld {[ vault_root := MkNode KDir 10 10;
             joinpath vault_root note_n := MkNode (KFile (Some text) true) 20 20 ]}
          t 0 linux_utc.

Definition fresh_state (text : string) (t : Z) : St :=
  (VaultManager_init vault_root, world_with text t).

(** *** Tags in snake case *)

(** [a-z0-9] *)
Definition is_lower_alnum (c : ascii) : bool :=
  let n := nat_of_ascii c in
  ((97 <=? n) && (n <=? 122) || (48 <=? n) && (n <=? 57))%nat%bool.

(** A word of a tag: lower-case letters and digits, at least one. *)
Definition is_word (word : string) : Prop :=
  word <> "" /\
  Forall (fun c => is_lower_alnum c = true) (list_ascii_of_string word).

(** Words joined by single underscores. *)
Definition snake_case (tag : string) : Prop :=
  exists words : list string, Forall is_word words /\ tag = String.concat "_" words.

(** The characters of a tag in snake case. *)
Definition is_snake_char (c : ascii) : bool :=
  is_lower_alnum c || Ascii.eqb c "_".

End VaultSpec.

Module SearchSpec.
Import Search.

(** [q] occurs in [t] as a contiguous substring. *)
Definition is_substring (q t : string) : Prop :=
  exists pre post : string, t = pre ++ q ++ post.

(** What the specification documents of the scorer: a score lies between 0
    and 100, and a non-empty query that is a substring of the title scores
    100 (partial-ratio semantics). *)
Definition partial_ratio_semantics (scorer : string -> string -> Qc) : Prop :=
  (forall q t, (Qc_of_Z 0 <= scorer q t)%Qc /\ (scorer q t <= Qc_of_Z 100)%Qc) /\
  (forall q t, q <> "" -> is_substring q t -> scorer q t = Qc_of_Z 100).

(** The number of titles before position [i] that score 100. *)
Definition perfect_before (scorer : string -> string -> Qc) (query : string)
    (titles : list string) (i : nat) : nat :=
  length (List.filter (fun t => bool_decide (scorer query t = Qc_of_Z 100))
                      (take i titles)).

(** The result built from a match and the text of its note. *)
Definition hit_of (m : Match) (text : string) : SearchHit :=
  MkSearchHit (fst (fst m)) (match_score m) (preview text).

(** The longest common subsequence, by its recursive definition. *)
Fixpoint lcs_spec (a b : list ascii) : nat :=
  match a with
  | [] => 0%nat
  | x :: a' =>
      (fix inner (b : list ascii) : nat :=
         match b with
         | [] => 0%nat
         | y :: b' =>
             if Ascii.eqb x y then S (lcs_spec a' b')
             else Nat.max (lcs_spec a' b) (inner b')
         end) b
  end.

(** The suffixes of a list, longest first. *)
Fixpoint tails {A} (l : list A) : list (list A) :=
  match l with
  | [] => [[]]
  | x :: l' => l :: tails l'
  end.

(** *** Indexes for the examples *)

Definition small_index : list (string * string) :=
  [("Project Alpha", "Kickoff notes"); ("Ideas", "Loose ideas"); ("Todo", "Buy milk")].

(** Ten titles that contain [Project Alpha], then the title itself. *)
Definition crowded_index : list (string * string) :=
  map (fun n => ("Project Alpha " ++ String (ascii_of_nat (48 + n)) "", "text"))
      (seq 0 10) ++
  [("Project Alpha", "the note")].

(** *** Ranking *)

(** [m2] does not score above [m1]. *)
Definition falling (m1 m2 : Match) : Prop :=
  (match_score m2 <= match_score m1)%Qc.

End SearchSpec.
(** * Properties of the vault *)

Module VaultProps.
Import Vault VaultSpec.

(** ** The patterns on examples *)

Example yaml_match_ex :
  _yaml_pattern_match ("---" ++ nl ++ "a: 1" ++ nl ++ "---" ++ nl ++ "body")
  = Some "a: 1".
Proof. reflexivity. Qed.

Example yaml_match_no_close :
  _yaml_pattern_match ("---" ++ nl ++ "---") = None.
Proof. reflexivity. Qed.

Example findall_tags_ex :
  findall_tags "x #a-b, ##c # #d_1" = {[ "a-b"; "c"; "d_1" ]}.
Proof. vm_compute. reflexivity. Qed.

Example findall_links_ex :
  findall_links ("[[A]] and [[[b]]] [[open" ++ nl ++ "c]] [[d]]")
  = {[ "A"; "[b"; "d" ]}.
Proof. vm_compute. reflexivity. Qed.

Example stem_ex :
  stem (MkPath false ["a"; "b.c.md"]) = "b.c" /\
  stem (MkPath false [".md"]) = ".md" /\
  stem (MkPath false ["x."]) = "x.".
Proof. repeat split. Qed.

(** [needle in s] holds exactly when [needle] occurs at some offset. *)
Lemma str_contains_spec (needle s : string) :
  needle <> "" ->
  str_contains needle s = true <->
  exists m, String.substring m (String.length needle) s = needle.
Proof.
  intros Hne. unfold str_contains.
  destruct (String.index 0 needle s) as [k|] eqn:Hi; split.
  - intros _. exists k. by apply (index_correct1 0).
  - done.
  - done.
  - intros [m Hm]. exfalso.
    eapply (index_correct3 0 m needle s); [done | | lia | done].
    by destruct needle.
Qed.

(** ** What [_get_metadata] does, case by case *)

Ltac run :=
  cbv beta iota zeta delta
    [_get_metadata bind ret raise try_except lift
     get_self put_self get_world put_world now path_stat os_stat fromtimestamp
     path_exists path_is_file read_text fst snd].

(** ** The calls on the file system *)

Lemma os_stat_present (p : Path) (node : Node) (self : VaultManager) (w : World) :
  fs w !! p = Some node -> os_stat p (self, w) = (Ok (Some node), (self, w)).
Proof. intros H. unfold os_stat, bind, get_world, ret. simpl. by rewrite H. Qed.

Lemma os_stat_absent (p : Path) (self : VaultManager) (w : World) :
  fs w !! p = None ->
  os_stat p (self, w)
  = (if refuses (os w) SysStat p then Raise OSError else Ok None, (self, w)).
Proof.
  intros H. unfold os_stat, bind, get_world, ret, raise. simpl. rewrite H.
  by destruct (refuses _ _ _).
Qed.

Lemma universal_newlines_plain (s : string) :
  Forall (fun c => c <> char_cr) (list_ascii_of_string s) ->
  universal_newlines s = s.
Proof.
  induction s as [|c s IH]; simpl; [done|]. intros [Hc Hs]%Forall_cons.
  apply Ascii.eqb_neq in Hc. by rewrite Hc, (IH Hs).
Qed.

Lemma fromtimestamp_ok (t : Z) (self : VaultManager) (w : World) :
  datetime_range (os w) t = true -> fromtimestamp t (self, w) = (Ok t, (self, w)).
Proof. unfold fromtimestamp, bind, get_world, ret. simpl. by intros ->. Qed.

(** A hit of the metadata cache returns the entry, whatever the text. *)
Lemma get_metadata_hit safe_load (self : VaultManager) (w : World) (p : Path)
    (text : string) (cached : VaultMetadata) :
  _metadata_cache self !! p = Some cached ->
  _get_metadata safe_load p text (self, w) = (Ok cached, (self, w)).
Proof. intros H. run. by rewrite H. Qed.

(** A miss extracts: it stores and returns the extracted metadata, or, when
    something raised, returns the degenerate metadata and stores nothing. *)
Lemma get_metadata_miss safe_load (self : VaultManager) (w : World) (p : Path)
    (text : string) :
  _metadata_cache self !! p = None ->
  _get_metadata safe_load p text (self, w)
  = match extract safe_load (datetime_range (os w)) (fs w !! p) text with
    | Some m => (Ok m, (with_metadata_cache (<[p := m]> (_metadata_cache self)) self, w))
    | None => (Ok (degenerate (clock w)), (self, w))
    end.
Proof.
  intros Hmiss. run. rewrite Hmiss. unfold extract.
  destruct (fs w !! p) as [stats|]; [|by destruct (refuses _ _ _)].
  destruct (datetime_range (os w) (st_ctime stats)); [|done].
  destruct (datetime_range (os w) (st_mtime stats)); [|done].
  simpl. by destruct (frontmatter_of safe_load text).
Qed.

Lemma extract_fields safe_load (in_range : Z -> bool) (stat : option Node)
    (text : string) (m : VaultMetadata) :
  extract safe_load in_range stat text = Some m ->
  tags m = findall_tags text /\ links m = findall_links text /\
  backlinks m = ∅ /\ frontmatter_of safe_load text = Ok (yaml_frontmatter m).
Proof.
  unfold extract. destruct stat as [stats|]; [|done].
  destruct (_ && _); [|done].
  destruct (frontmatter_of safe_load text); [|done].
  by intros [= <-].
Qed.

(** C4: [_get_metadata] is total. On every manager, world, path and text,
    and whatever [yaml.safe_load] returns or raises, it returns a
    [VaultMetadata] and raises nothing: the cached entry of the path, or the
    metadata extracted from the text (which it stores), or, when the [stat],
    the conversion of a time stamp or the parser raised, the degenerate
    metadata with the current time and empty tags, links and front matter.
    The world is left as it was. *)
Theorem get_metadata_total safe_load (self : VaultManager) (w : World)
    (p : Path) (text : string) :
  exists (m : VaultMetadata) (self' : VaultManager),
    _get_metadata safe_load p text (self, w) = (Ok m, (self', w)) /\
    (_metadata_cache self !! p = Some m /\ self' = self \/
     _metadata_cache self !! p = None /\
       tags m = findall_tags text /\ links m = findall_links text /\
       backlinks m = ∅ /\ _metadata_cache self' !! p = Some m \/
     _metadata_cache self !! p = None /\
       m = degenerate (clock w) /\ self' = self).
Proof.
  destruct (_metadata_cache self !! p) as [cached|] eqn:Hc.
  { exists cached, self. split; [by apply get_metadata_hit | auto]. }
  rewrite (get_metadata_miss _ _ _ _ _ Hc).
  destruct (extract safe_load (datetime_range (os w)) (fs w !! p) text) as [m|] eqn:He.
  - eexists _, _. split; [done|]. right; left.
    destruct (extract_fields _ _ _ _ _ He) as (? & ? & ? & _).
    simpl. by rewrite lookup_insert_eq.
  - eexists _, _. split; [done|]. auto.
Qed.

(** The front matter computed from the text is the one of the metadata that
    a miss extracts. *)
Lemma frontmatter_reaches_metadata safe_load (self : VaultManager) (w : World)
    (p : Path) (text : string) (stats : Node) (fm : pydict) :
  frontmatter_of safe_load text = Ok fm ->
  _metadata_cache self !! p = None ->
  fs w !! p = Some stats ->
  datetime_range (os w) (st_ctime stats) = true ->
  datetime_range (os w) (st_mtime stats) = true ->
  exists (m : VaultMetadata) (self' : VaultManager),
    _get_metadata safe_load p text (self, w) = (Ok m, (self', w)) /\
    yaml_frontmatter m = fm /\
    _metadata_cache self' !! p = Some m.
Proof.
  intros Hfm Hmiss Hfs Hc Hm.
  rewrite (get_metadata_miss _ _ _ _ _ Hmiss). unfold extract.
  rewrite Hfs, Hc, Hm, Hfm. simpl.
  eexists _, _. split; [done|]. split; [done|]. simpl. by rewrite lookup_insert_eq.
Qed.

(** C5: template safety. When the text begins with a fenced front-matter
    block and the block contains [{{] or [{%], the front matter that
    [_get_metadata] computes is exactly [{"_is_template": True}], whatever
    [yaml.safe_load] would return or raise on the block (the parser is not
    consulted); it is the [yaml_frontmatter] of the metadata extracted for
    any path without a cached entry whose [stat] succeeds with time stamps
    that [datetime.fromtimestamp] accepts on the platform. *)
Theorem template_frontmatter safe_load (text block : string) :
  _yaml_pattern_match text = Some block ->
  str_contains "{{" block = true \/ str_contains "{%" block = true ->
  frontmatter_of safe_load text = Ok template_marker /\
  forall (self : VaultManager) (w : World) (p : Path) (stats : Node),
    _metadata_cache self !! p = None ->
    fs w !! p = Some stats ->
    datetime_range (os w) (st_ctime stats) = true ->
    datetime_range (os w) (st_mtime stats) = true ->
    exists (m : VaultMetadata) (self' : VaultManager),
      _get_metadata safe_load p text (self, w) = (Ok m, (self', w)) /\
      yaml_frontmatter m = template_marker /\
      _metadata_cache self' !! p = Some m.
Proof.
  intros Hmatch Htpl.
  assert (Hfm : frontmatter_of safe_load text = Ok template_marker).
  { unfold frontmatter_of. rewrite Hmatch.
    destruct Htpl as [-> | ->]; [done|]. by rewrite orb_true_r. }
  split; [done|]. intros. by eapply frontmatter_reaches_metadata.
Qed.

Lemma template_frontmatter_witness :
  let text := "---" ++ nl ++ "title: {{title}}" ++ nl ++ "---" ++ nl ++ "body" in
  frontmatter_of (safe_load_raises OtherException) text = Ok template_marker /\
  exists (m : VaultMetadata) (self' : VaultManager),
    _get_metadata (safe_load_raises OtherException) (joinpath vault_root note_n) text
      (fresh_state text 100)
    = (Ok m, (self', world_with text 100)) /\
    yaml_frontmatter m = template_marker /\
    _metadata_cache self' !! joinpath vault_root note_n = Some m.
Proof.
  intros text.
  destruct (template_frontmatter (safe_load_raises OtherException) text
              "title: {{title}}") as [Hfm Hmeta].
  - reflexivity.
  - left. reflexivity.
  - split; [exact Hfm|].
    apply (Hmeta (VaultManager_init vault_root) (world_with text 100)
                 (joinpath vault_root note_n)
                 (MkNode (KFile (Some text) true) 20 20)).
    + reflexivity.
    + vm_compute. reflexivity.
    + reflexivity.
    + reflexivity.
Defined.

(** C6, as the specification states it, fails: a block that PyYAML parses
    to something that is not a mapping (here the plain word [hello]) is
    dropped, not kept under [_raw_frontmatter]. *)
Lemma non_mapping_frontmatter_dropped :
  let text := "---" ++ nl ++ "hello" ++ nl ++ "---" ++ nl ++ "body" in
  _yaml_pattern_match text = Some "hello" /\
  str_contains "{{" "hello" = false /\
  str_contains "{%" "hello" = false /\
  safe_load_word "hello" = Ok (PyStr "hello") /\
  exists (m : VaultMetadata) (st' : St),
    _get_metadata safe_load_word (joinpath vault_root note_n) text
      (fresh_state text 100) = (Ok m, st') /\
    yaml_frontmatter m = [] /\
    yaml_frontmatter m <> raw_frontmatter "hello".
Proof.
  repeat split.
  eexists _, _. split; [vm_compute; reflexivity|]. simpl. done.
Qed.

(** C6, amended: when the text begins with a fenced front-matter block
    that holds no template placeholder and [yaml.safe_load] raises a
    [yaml.YAMLError] on it, the front matter is
    [{"_raw_frontmatter": block}]; when the parser returns a value that is
    not a mapping, the front matter is the empty dictionary. Either is the
    [yaml_frontmatter] of the metadata extracted for any path without a
    cached entry whose [stat] succeeds with time stamps that
    [datetime.fromtimestamp] accepts on the platform. *)
Theorem raw_frontmatter_on_yaml_error safe_load (text block : string) :
  _yaml_pattern_match text = Some block ->
  str_contains "{{" block = false ->
  str_contains "{%" block = false ->
  (safe_load block = Raise YAMLError \/
   exists v, safe_load block = Ok v /\ forall d, v <> PyDict d) ->
  let fm := match safe_load block with
            | Raise _ => raw_frontmatter block
            | Ok _ => []
            end in
  frontmatter_of safe_load text = Ok fm /\
  forall (self : VaultManager) (w : World) (p : Path) (stats : Node),
    _metadata_cache self !! p = None ->
    fs w !! p = Some stats ->
    datetime_range (os w) (st_ctime stats) = true ->
    datetime_range (os w) (st_mtime stats) = true ->
    exists (m : VaultMetadata) (self' : VaultManager),
      _get_metadata safe_load p text (self, w) = (Ok m, (self', w)) /\
      yaml_frontmatter m = fm /\
      _metadata_cache self' !! p = Some m.
Proof.
  intros Hmatch H1 H2 Hload fm.
  assert (Hfm : frontmatter_of safe_load text = Ok fm).
  { unfold frontmatter_of, fm. rewrite Hmatch, H1, H2. simpl.
    destruct Hload as [-> | (v & -> & Hv)]; [done|].
    destruct v; try done. by destruct (Hv d). }
  split; [done|]. intros. by eapply frontmatter_reaches_metadata.
Qed.

Lemma raw_frontmatter_on_yaml_error_witness :
  let text := "---" ++ nl ++ "key: [unclosed" ++ nl ++ "---" ++ nl ++ "body" in
  frontmatter_of (safe_load_raises YAMLError) text
  = Ok (raw_frontmatter "key: [unclosed") /\
  exists (m : VaultMetadata) (self' : VaultManager),
    _get_metadata (safe_load_raises YAMLError) (joinpath vault_root note_n) text
      (fresh_state text 100)
    = (Ok m, (self', world_with text 100)) /\
    yaml_frontmatter m = raw_frontmatter "key: [unclosed" /\
    _metadata_cache self' !! joinpath vault_root note_n = Some m.
Proof.
  intros text.
  destruct (raw_frontmatter_on_yaml_error (safe_load_raises YAMLError) text
              "key: [unclosed") as [Hfm Hmeta].
  - reflexivity.
  - reflexivity.
  - reflexivity.
  - left. reflexivity.
  - split; [exact Hfm|].
    apply (Hmeta (VaultManager_init vault_root) (world_with text 100)
                 (joinpath vault_root note_n)
                 (MkNode (KFile (Some text) true) 20 20)).
    + reflexivity.
    + vm_compute. reflexivity.
    + reflexivity.
    + reflexivity.
Defined.

(** C3, as the specification states it, fails: the metadata returned for
    a path is not determined by the text and the [stat] of the call. After
    a call with the text [#a], a call with the text [#b] in the same world
    returns the tags of [#a]; the same call on a manager without the entry
    returns the tags of [#b]. *)
Lemma get_metadata_ignores_text_on_hit :
  let p := joinpath vault_root note_n in
  let s0 := fresh_state "#a" 100 in
  let s1 := snd (_get_metadata safe_load_word p "#a" s0) in
  snd s1 = snd s0 /\
  exists (m_stale m_fresh : VaultMetadata),
    fst (_get_metadata safe_load_word p "#b" s1) = Ok m_stale /\
    fst (_get_metadata safe_load_word p "#b" s0) = Ok m_fresh /\
    tags m_stale = {[ "a" ]} /\
    tags m_fresh = {[ "b" ]} /\
    m_stale <> m_fresh.
Proof.
  split; [vm_compute; reflexivity|].
  eexists _, _.
  split; [vm_compute; reflexivity|].
  split; [vm_compute; reflexivity|].
  split; [vm_compute; reflexivity|].
  split; [vm_compute; reflexivity|].
  intros H. apply (f_equal tags) in H. vm_compute in H. discriminate H.
Qed.

(** C3, amended. (1) No call of [_get_metadata] changes the world, and a
    call repeated with the same path and text on an unchanged file system
    returns the same metadata and leaves the manager as the first call left
    it, at any later time once the first call has stored its result.
    (2) On a path without a cached entry the result is a function of the
    text and the [stat] of that call: the extracted metadata, or the
    degenerate metadata at the current time when the [stat], the
    conversion of a time stamp (outside the range of the platform) or the
    parser raised. (3) On a path with a cached entry, left by an earlier call
    (whatever its text), that entry is returned unchanged for every text. *)
Theorem get_metadata_function_of_text_and_stat safe_load (p : Path)
    (text : string) :
  (forall (self : VaultManager) (w : World),
     exists (m : VaultMetadata) (self' : VaultManager),
       _get_metadata safe_load p text (self, w) = (Ok m, (self', w)) /\
       _get_metadata safe_load p text (self', w) = (Ok m, (self', w)) /\
       (is_Some (_metadata_cache self' !! p) ->
        forall t, _get_metadata safe_load p text (self', set_clock t w)
                  = (Ok m, (self', set_clock t w)))) /\
  (forall (self : VaultManager) (w : World),
     _metadata_cache self !! p = None ->
     fst (_get_metadata safe_load p text (self, w))
     = Ok (default (degenerate (clock w))
             (extract safe_load (datetime_range (os w)) (fs w !! p) text))) /\
  (forall (self : VaultManager) (w : World) (cached : VaultMetadata) (text' : string),
     _metadata_cache self !! p = Some cached ->
     _get_metadata safe_load p text' (self, w) = (Ok cached, (self, w))).
Proof.
  split; [|split].
  - intros self w.
    destruct (_metadata_cache self !! p) as [cached|] eqn:Hc.
    { exists cached, self. rewrite (get_metadata_hit _ _ _ _ _ _ Hc).
      split; [done|]. split; [done|]. intros _ t. by apply get_metadata_hit. }
    rewrite (get_metadata_miss _ _ _ _ _ Hc).
    destruct (extract safe_load (datetime_range (os w)) (fs w !! p) text) as [m|] eqn:He.
    + eexists _, _. split; [done|].
      assert (Hhit : forall w',
        _get_metadata safe_load p text
          (with_metadata_cache (<[p:=m]> (_metadata_cache self)) self, w')
        = (Ok m, (with_metadata_cache (<[p:=m]> (_metadata_cache self)) self, w'))).
      { intros w'. apply get_metadata_hit. simpl. by rewrite lookup_insert_eq. }
      split; [apply Hhit|]. intros _ t. apply Hhit.
    + exists (degenerate (clock w)), self. split; [done|]. split.
      * rewrite (get_metadata_miss _ _ _ _ _ Hc). by rewrite He.
      * rewrite Hc. by intros [? ?].
  - intros self w Hc. rewrite (get_metadata_miss _ _ _ _ _ Hc).
    by destruct (extract safe_load (datetime_range (os w)) (fs w !! p) text).
  - intros self w cached text' Hc. by apply get_metadata_hit.
Qed.

Lemma get_metadata_function_of_text_and_stat_witness :
  let p := joinpath vault_root note_n in
  let s0 := fresh_state "#a" 100 in
  fst (_get_metadata safe_load_word p "#a" s0)
  = Ok (default (degenerate 100)
          (extract safe_load_word utc_range
             (Some (MkNode (KFile (Some "#a") true) 20 20)) "#a")) /\
  forall cached,
    _get_metadata safe_load_word p "#a"
      (with_metadata_cache {[ p := cached ]} (VaultManager_init vault_root),
       world_with "#a" 100)
    = (Ok cached,
       (with_metadata_cache {[ p := cached ]} (VaultManager_init vault_root),
        world_with "#a" 100)).
Proof.
  intros p s0.
  destruct (get_metadata_function_of_text_and_stat safe_load_word p "#a")
    as (_ & Hmiss & Hhit).
  split.
  - apply (Hmiss (VaultManager_init vault_root) (world_with "#a" 100)).
    reflexivity.
  - intros cached. apply Hhit. vm_compute. reflexivity.
Defined.

(** ** What [_read_file] and [get_note] do, case by case *)

Ltac run_all :=
  cbv beta iota zeta delta
    [get_note _read_file update_note _write_file write_text invalidate_cache
     relative_to process_file
     bind ret raise try_except lift
     get_self put_self get_world put_world now path_stat os_stat
     path_exists path_is_file read_text fst snd].

Lemma read_file_hit (self : VaultManager) (w : World) (p : Path) (text : string) :
  _note_cache self !! p = Some text ->
  _read_file p (self, w) = (Ok (Some text), (self, w)).
Proof. intros H. run_all. by rewrite H. Qed.

Lemma read_file_miss (self : VaultManager) (w : World) (p : Path) :
  _note_cache self !! p = None ->
  _read_file p (self, w)
  = match text_read (fs w !! p) with
    | Some text =>
        (Ok (Some text),
         (with_note_cache (<[p := text]> (_note_cache self)) self, one_more_read w))
    | None => (Ok None, (self, one_more_read w))
    end.
Proof.
  intros H. run_all. rewrite H. unfold text_read, file_text, one_more_read.
  destruct (fs w !! p) as [[[[text|] wr|] ct mt]|]; done.
Qed.

Lemma text_read_file (entry : option Node) (text : string) :
  text_read entry = Some text -> is_file entry = true.
Proof. by destruct entry as [[[[t|] wr|] ct mt]|]. Qed.



(** [_get_metadata] reads and assigns nothing but the metadata cache. *)
Lemma get_metadata_frame safe_load (self : VaultManager) (w : World) (p : Path)
    (text : string) :
  exists (m : VaultMetadata) (self' : VaultManager),
    _get_metadata safe_load p text (self, w) = (Ok m, (self', w)) /\
    vault_path self' = vault_path self /\
    _note_cache self' = _note_cache self /\
    _note_list_cache self' = _note_list_cache self /\
    _note_list_cache_time self' = _note_list_cache_time self /\
    _cache_ttl self' = _cache_ttl self.
Proof.
  destruct (_metadata_cache self !! p) as [cached|] eqn:Hc.
  { exists cached, self. by rewrite (get_metadata_hit _ _ _ _ _ _ Hc). }
  rewrite (get_metadata_miss _ _ _ _ _ Hc).
  destruct (extract safe_load (datetime_range (os w)) (fs w !! p) text); eexists _, _; done.
Qed.

Lemma get_note_unfold safe_load (p : Path) (self : VaultManager) (w : World) :
  get_note safe_load p (self, w)
  = let absolute_path := joinpath (vault_path self) p in
    if is_file (fs w !! absolute_path) then
      match _read_file absolute_path (self, w) with
      | (Ok (Some text), s1) =>
          match _get_metadata safe_load absolute_path text s1 with
          | (Ok m, s2) => (Ok (Some (MkVaultNote p (stem p) text m)), s2)
          | (Raise _, s2) => (Ok None, s2)
          end
      | (Ok None, s1) => (Ok None, s1)
      | (Raise _, s1) => (Ok None, s1)
      end
    else (Ok None, (self, w)).
Proof.
  unfold get_note.
  repeat progress unfold try_except, bind, get_self, path_exists, path_is_file,
    os_stat, get_world, ret, raise, is_file; simpl.
  destruct (fs w !! joinpath (vault_path self) p) as [[[text wr|] ct mt]|] eqn:Hfs;
    simpl; rewrite ?Hfs; simpl; try done.
  - destruct (_read_file _ _) as [[[t|]|e] s1]; try done.
    destruct (_get_metadata _ _ _ _) as [[m|e] s2]; done.
  - by destruct (refuses _ _ _).
Qed.

(** The four ways [get_note] ends. *)
Lemma get_note_cases safe_load (p : Path) (self : VaultManager) (w : World) :
  let absolute_path := joinpath (vault_path self) p in
  (is_file (fs w !! absolute_path) = false /\
   get_note safe_load p (self, w) = (Ok None, (self, w))) \/
  (is_file (fs w !! absolute_path) = true /\
   exists (text : string) (m : VaultMetadata) (self' : VaultManager),
     _note_cache self !! absolute_path = Some text /\
     get_note safe_load p (self, w)
     = (Ok (Some (MkVaultNote p (stem p) text m)), (self', w)) /\
     vault_path self' = vault_path self /\
     _note_cache self' = _note_cache self /\
     _note_list_cache self' = _note_list_cache self /\
     _note_list_cache_time self' = _note_list_cache_time self /\
     _cache_ttl self' = _cache_ttl self) \/
  (is_file (fs w !! absolute_path) = true /\
   exists (text : string) (m : VaultMetadata) (self' : VaultManager),
     _note_cache self !! absolute_path = None /\
     text_read (fs w !! absolute_path) = Some text /\
     get_note safe_load p (self, w)
     = (Ok (Some (MkVaultNote p (stem p) text m)), (self', one_more_read w)) /\
     vault_path self' = vault_path self /\
     _note_cache self' = <[absolute_path := text]> (_note_cache self) /\
     _note_list_cache self' = _note_list_cache self /\
     _note_list_cache_time self' = _note_list_cache_time self /\
     _cache_ttl self' = _cache_ttl self) \/
  (is_file (fs w !! absolute_path) = true /\
   _note_cache self !! absolute_path = None /\
   text_read (fs w !! absolute_path) = None /\
   get_note safe_load p (self, w) = (Ok None, (self, one_more_read w))).
Proof.
  intros absolute_path. rewrite get_note_unfold. cbv zeta. fold absolute_path.
  destruct (is_file (fs w !! absolute_path)) eqn:Hf; [|by left].
  right. simpl.
  destruct (_note_cache self !! absolute_path) as [text|] eqn:Hc.
  - left. split; [done|]. rewrite (read_file_hit _ _ _ _ Hc).
    destruct (get_metadata_frame safe_load self w absolute_path text)
      as (m & self' & -> & ? & ? & ? & ? & ?).
    exists text, m, self'. repeat split; done.
  - right. rewrite (read_file_miss _ _ _ Hc).
    destruct (text_read (fs w !! absolute_path)) as [text|] eqn:Ht.
    + left. split; [done|].
      destruct (get_metadata_frame safe_load
                  (with_note_cache (<[absolute_path:=text]> (_note_cache self)) self)
                  (one_more_read w) absolute_path text)
        as (m & self' & -> & ? & ? & ? & ? & ?).
      exists text, m, self'. simpl in *. repeat split; done.
    + right. done.
Qed.

(** ** What [update_note] does *)

Lemma strip_prefix_app (pre l : list string) : strip_prefix pre (pre ++ l)%list = Some l.
Proof.
  induction pre as [|x pre IH]; simpl; [done|]. by rewrite String.eqb_refl.
Qed.


Lemma update_note_unfold hs (p : Path) (text mode : string) (heading : option string)
    (self : VaultManager) (w : World) :
  update_note hs p text mode heading (self, w)
  = let absolute_path := joinpath (vault_path self) p in
    match fs w !! absolute_path with
    | None =>
        (if refuses (os w) SysStat absolute_path then Raise OSError else Ok false,
         (self, w))
    | Some node =>
        match _read_file absolute_path (self, w) with
        | (Ok (Some existing_content), (self1, w1)) =>
            match kind node with
            | KFile _ true =>
                let w2 := written absolute_path
                            (new_content_of hs existing_content text mode heading) w1 in
                match relative_to absolute_path (vault_path self) (self1, w2) with
                | (Ok rel, _) =>
                    let self2 := invalidated (Some rel) self1 in
                    (Ok true,
                     (with_note_cache (del_if_present p (_note_cache self2)) self2, w2))
                | (Raise _, _) => (Ok false, (self1, w2))
                end
            | _ => (Ok false, (self1, w1))
            end
        | (_, s1) => (Ok false, s1)
        end
    end.
Proof.
  unfold update_note.
  repeat progress unfold try_except, bind, get_self, path_exists, os_stat,
    get_world, ret, raise; simpl.
  destruct (fs w !! joinpath (vault_path self) p) as [node|] eqn:Hfs; simpl.
  2:{ by destruct (refuses _ _ _). }
  destruct (_read_file _ _) as [[[existing|]|e] [self1 w1]] eqn:Hread; try done.
  assert (Hw1 : fs w1 = fs w /\ clock w1 = clock w /\ os w1 = os w).
  { destruct (_note_cache self !! joinpath (vault_path self) p) as [c|] eqn:Hc.
    - rewrite (read_file_hit _ _ _ _ Hc) in Hread. by simplify_eq.
    - rewrite (read_file_miss _ _ _ Hc) in Hread.
      destruct (text_read _); by simplify_eq. }
  destruct Hw1 as (Hfs1 & Hck1 & Hos1).
  unfold _write_file, write_text.
  repeat progress unfold bind, get_world, put_world, raise, ret; simpl.
  unfold written. rewrite Hfs1, Hfs.
  destruct node as [[ft [|]|] ct mt]; simpl; try done.
  unfold relative_to. repeat progress unfold raise, ret; simpl.
  destruct (Bool.eqb _ _); [|done]. by destruct (strip_prefix _ _).
Qed.

Lemma read_file_world (p : Path) (self : VaultManager) (w : World) :
  exists (r : option string) (self' : VaultManager) (w' : World),
    _read_file p (self, w) = (Ok r, (self', w')) /\
    fs w' = fs w /\ clock w' = clock w /\
    vault_path self' = vault_path self /\
    (read_count w <= read_count w')%nat /\
    match r with
    | Some text =>
        _note_cache self' = <[p := text]> (_note_cache self) /\
        (_note_cache self !! p = Some text /\ w' = w /\ self' = self \/
         _note_cache self !! p = None /\ text_read (fs w !! p) = Some text /\
         w' = one_more_read w)
    | None =>
        self' = self /\ _note_cache self !! p = None /\
        text_read (fs w !! p) = None
    end.
Proof.
  destruct (_note_cache self !! p) as [c|] eqn:Hc.
  - rewrite (read_file_hit _ _ _ _ Hc). exists (Some c), self, w.
    repeat split; try done.
    + by rewrite insert_id.
    + by left.
  - rewrite (read_file_miss _ _ _ Hc).
    destruct (text_read (fs w !! p)) as [text|] eqn:Ht.
    + eexists (Some text), _, _. repeat split; try done.
      * simpl. lia.
      * right. done.
    + eexists None, _, _. repeat split; try done. simpl. lia.
Qed.

(** What a successful [update_note] did. *)
Lemma update_note_true hs (p : Path) (text mode : string) (heading : option string)
    (self self' : VaultManager) (w w' : World) :
  update_note hs p text mode heading (self, w) = (Ok true, (self', w')) ->
  let absolute_path := joinpath (vault_path self) p in
  exists (existing : string),
    is_file (fs w !! absolute_path) = true /\
    (_note_cache self !! absolute_path = Some existing \/
     _note_cache self !! absolute_path = None /\
     text_read (fs w !! absolute_path) = Some existing) /\
    file_text (fs w' !! absolute_path)
    = Some (new_content_of hs existing text mode heading) /\
    is_file (fs w' !! absolute_path) = true /\
    vault_path self' = vault_path self /\
    _note_cache self' = del_if_present p (<[absolute_path := existing]> (_note_cache self)).
Proof.
  rewrite update_note_unfold. cbv zeta.
  set (absolute_path := joinpath (vault_path self) p).
  destruct (fs w !! absolute_path) as [node|] eqn:Hfs;
    [|by destruct (refuses _ _ _)].
  destruct (read_file_world absolute_path self w)
    as (r & self1 & w1 & -> & Hfs1 & Hck & Hvp & _ & Hr).
  destruct r as [existing|]; [|done].
  destruct node as [[ft [|]|] ct mt]; simpl; try done.
  destruct (relative_to _ _ _) as [[rel|e] s3]; [|done].
  intros [= <- <-]. exists existing.
  destruct Hr as [Hcache Hr].
  rewrite Hfs in Hr. split; [done|]. split.
  { destruct Hr as [(? & _) | (? & ? & _)]; auto. }
  unfold written; simpl. rewrite lookup_insert_eq. simpl.
  split; [done|]. split; [done|]. split.
  - rewrite <- Hvp. unfold invalidated. simpl.
    by destruct (_note_list_cache self1) as [[|??]|].
  - rewrite <- Hcache. unfold invalidated. simpl.
    by destruct (_note_list_cache self1) as [[|??]|].
Qed.

(** ** A stale read after an update *)

Lemma lookup_del_if_present_ne {V} (key p : Path) (d : gmap Path V) :
  key <> p -> del_if_present key d !! p = d !! p.
Proof.
  intros Hne. unfold del_if_present.
  destruct (d !! key); [by apply lookup_delete_ne | done].
Qed.

(** C1: the defect. Whenever [update_note] returns [True] for a path that
    differs from its absolute form [vault_path / path] (every relative path
    in a vault whose root is not the empty path), the file holds the new
    content, but the content cache still holds the content read before the
    write, under the absolute path: [invalidate_cache] and the deletion in
    [_note_cache] are given relative keys, while both caches are keyed by
    absolute paths. The [get_note] that follows returns the content from
    before the update. *)
Theorem update_note_then_get_note_stale safe_load heading_search
    (p : Path) (text mode : string) (heading : option string)
    (self self' : VaultManager) (w w' : World) :
  update_note heading_search p text mode heading (self, w) = (Ok true, (self', w')) ->
  joinpath (vault_path self) p <> p ->
  exists (existing : string) (m : VaultMetadata) (self'' : VaultManager),
    file_text (fs w' !! joinpath (vault_path self) p)
    = Some (new_content_of heading_search existing text mode heading) /\
    get_note safe_load p (self', w')
    = (Ok (Some (MkVaultNote p (stem p) existing m)), (self'', w')).
Proof.
  intros Hupd Hne.
  destruct (update_note_true _ _ _ _ _ _ _ _ _ Hupd)
    as (existing & _ & _ & Htext & Hfile & Hvp & Hcache).
  assert (Hhit : _note_cache self' !! joinpath (vault_path self') p = Some existing).
  { rewrite Hvp, Hcache, lookup_del_if_present_ne by done. by rewrite lookup_insert_eq. }
  destruct (get_note_cases safe_load p self' w')
    as [(Hf & _) | [(_ & t & m & self'' & Ht & Hget & _) |
        [(_ & t & m & self'' & Ht & _) | (_ & Ht & _)]]].
  - rewrite Hvp in Hf. congruence.
  - rewrite Hhit in Ht. injection Ht as <-. by exists existing, m, self''.
  - congruence.
  - congruence.
Qed.

Lemma update_note_then_get_note_stale_witness :
  let s0 := fresh_state "old" 100 in
  let s1 := snd (update_note no_heading note_n "new" "append" None s0) in
  exists (existing : string) (m : VaultMetadata) (self'' : VaultManager),
    file_text (fs (snd s1) !! joinpath vault_root note_n)
    = Some (new_content_of no_heading existing "new" "append" None) /\
    get_note safe_load_word note_n (fst s1, snd s1)
    = (Ok (Some (MkVaultNote note_n (stem note_n) existing m)), (self'', snd s1)).
Proof.
  intros s0 s1.
  apply (update_note_then_get_note_stale safe_load_word no_heading note_n
           "new" "append" None (fst s0) (fst s1) (snd s0) (snd s1)).
  - vm_compute. reflexivity.
  - vm_compute. discriminate.
Defined.

(** C1 on the failing input: in the vault [/home/vault] with the note
    [n.md] holding [old], [update_note(Path("n.md"), "new", "append")]
    returns [True] and the file holds [old\nnew], but the [get_note] that
    follows returns the content [old]. *)
Example update_note_then_get_note_example :
  let s0 := fresh_state "old" 100 in
  let r := update_note no_heading note_n "new" "append" None s0 in
  fst r = Ok true /\
  file_text (fs (snd (snd r)) !! joinpath vault_root note_n)
  = Some ("old" ++ nl ++ "new") /\
  match fst (get_note safe_load_word note_n (snd r)) with
  | Ok (Some note) => content note
  | _ => ""
  end = "old".
Proof. repeat split; vm_compute; reflexivity. Qed.

(** ** Modes other than append and prepend *)

Lemma relative_to_joinpath (base p : Path) (s : St) :
  is_absolute p = false ->
  relative_to (joinpath base p) base s = (Ok p, s).
Proof.
  intros Hrel. unfold relative_to, joinpath. rewrite Hrel. simpl.
  rewrite Bool.eqb_reflx, strip_prefix_app.
  destruct p as [a ps]. simpl in *. by subst a.
Qed.




(** ** The time to live of the caches *)

Lemma get_note_scan_step safe_load (p : Path) : scan_step (get_note safe_load p).
Proof.
  intros self w.
  destruct (get_note_cases safe_load p self w)
    as [(_ & ->) | [(_ & t & m & self' & _ & -> & ? & _ & ? & ? & ?) |
        [(_ & t & m & self' & _ & _ & -> & ? & _ & ? & ? & ?) | (_ & _ & _ & ->)]]];
    eexists _, _, _; (split; [reflexivity|]); done.
Qed.

Lemma process_file_scan_step safe_load (file_path : Path) :
  scan_step (process_file safe_load file_path).
Proof.
  intros self w. unfold process_file, relative_to.
  repeat progress unfold try_except, bind, get_self, raise, ret; simpl.
  destruct (Bool.eqb _ _); [|by eexists _, _, _].
  destruct (strip_prefix _ _) as [rest|]; [|by eexists _, _, _].
  destruct (get_note_scan_step safe_load (MkPath false rest) self w)
    as (a & self' & w' & -> & ?).
  by eexists _, _, _.
Qed.

Lemma mapM_scan_step {A B} (f : A -> M B) (l : list A) :
  (forall x, scan_step (f x)) -> scan_step (mapM f l).
Proof.
  intros Hf. induction l as [|x l IH]; intros self w; simpl.
  - by eexists _, _, _.
  - unfold bind, ret.
    destruct (Hf x self w)
      as (y & self1 & w1 & -> & Hfs1 & Hck1 & Hvp1 & Httl1 & Hl1 & Ht1).
    destruct (IH self1 w1)
      as (ys & self2 & w2 & -> & Hfs2 & Hck2 & Hvp2 & Httl2 & Hl2 & Ht2).
    eexists _, _, _. split; [reflexivity|].
    repeat split; congruence.
Qed.

(** ** Scans of the vault *)

(** The outcome of [get_note], by the kind of the path and the state of
    the content cache. *)
Lemma get_note_outcome safe_load (p : Path) (self : VaultManager) (w : World) :
  let absolute_path := joinpath (vault_path self) p in
  let source :=
    if is_file (fs w !! absolute_path) then
      match _note_cache self !! absolute_path with
      | Some cached => Some cached
      | None => text_read (fs w !! absolute_path)
      end
    else None in
  exists (r : option VaultNote) (self' : VaultManager) (w' : World),
    get_note safe_load p (self, w) = (Ok r, (self', w')) /\
    fs w' = fs w /\
    match r, source with
    | Some note, Some text =>
        path note = p /\ title note = stem p /\ content note = text
    | None, None => True
    | _, _ => False
    end.
Proof.
  intros absolute_path source. subst source.
  destruct (get_note_cases safe_load p self w)
    as [(Hf & ->) | [(Hf & t & m & self' & Hc & -> & _) |
        [(Hf & t & m & self' & Hc & Ht & -> & _) | (Hf & Hc & Ht & ->)]]];
    fold absolute_path in Hf |- *; rewrite Hf.
  - by eexists _, _, _.
  - fold absolute_path in Hc. rewrite Hc. by eexists _, _, _.
  - fold absolute_path in Hc, Ht. rewrite Hc, Ht. by eexists _, _, _.
  - fold absolute_path in Hc, Ht. rewrite Hc, Ht. by eexists _, _, _.
Qed.










End VaultProps.
(** * Properties of the search *)

Module SearchProps.
Import Search SearchSpec.
Local Open Scope list_scope.

(** ** Order of the scores *)

Lemma Qc_leb_le (a b : Qc) : Qc_leb a b = true <-> (a <= b)%Qc.
Proof. unfold Qc_leb, Qcle. apply Qle_bool_iff. Qed.

Lemma Qc_leb_gt (a b : Qc) : Qc_leb a b = false <-> (b < a)%Qc.
Proof.
  rewrite <- Bool.not_true_iff_false, Qc_leb_le. split.
  - apply Qcnot_le_lt.
  - apply Qclt_not_le.
Qed.

(** ** [process.extract] *)

Lemma insert_match_perm (m : Match) (l : list Match) :
  insert_match m l ≡ₚ m :: l.
Proof.
  induction l as [|m' l IH]; simpl; [done|].
  destruct (Qc_leb _ _); [done|]. rewrite IH. apply Permutation_swap.
Qed.

Lemma sort_matches_perm (l : list Match) : sort_matches l ≡ₚ l.
Proof.
  induction l as [|m l IH]; simpl; [done|].
  rewrite insert_match_perm. by rewrite IH.
Qed.

Lemma insert_match_behind (m : Match) (front rest : list Match) :
  (forall m', m' ∈ front -> (match_score m < match_score m')%Qc) ->
  insert_match m (front ++ rest) = front ++ insert_match m rest.
Proof.
  induction front as [|m' front IH]; intros Hlt; [done|]. simpl.
  assert (H : Qc_leb (match_score m') (match_score m) = false).
  { apply Qc_leb_gt, Hlt. by left. }
  rewrite H, IH; [done|]. intros m'' Hm''. apply Hlt. by right.
Qed.

(** With no score above [top], the matches that score [top] come first,
    in their order of the list. *)
Lemma sort_matches_top_first (top : Qc) (l : list Match) :
  (forall m, m ∈ l -> (match_score m <= top)%Qc) ->
  let is_top := fun m => bool_decide (match_score m = top) in
  sort_matches l
  = List.filter is_top l ++ sort_matches (List.filter (fun m => negb (is_top m)) l).
Proof.
  intros Hle is_top. induction l as [|m l IH]; [done|].
  assert (Hle' : forall m', m' ∈ l -> (match_score m' <= top)%Qc).
  { intros m' Hm'. apply Hle. by right. }
  specialize (IH Hle').
  change (sort_matches (m :: l)) with (insert_match m (sort_matches l)).
  simpl List.filter. destruct (is_top m) eqn:Htop; simpl.
  - apply bool_decide_eq_true in Htop.
    destruct (sort_matches l) as [|m' s] eqn:Hs.
    { rewrite <- IH. done. }
    rewrite <- IH. simpl.
    assert (Hm' : (match_score m' <= top)%Qc).
    { apply Hle'. rewrite <- sort_matches_perm, Hs. by left. }
    rewrite Htop. apply Qc_leb_le in Hm'. by rewrite Hm'.
  - apply bool_decide_eq_false in Htop.
    rewrite IH. apply insert_match_behind.
    intros m' Hm'. apply list_elem_of_In, filter_In in Hm' as [_ Hm'].
    apply bool_decide_eq_true in Hm'. rewrite Hm'.
    destruct (Qcle_lt_or_eq _ _ (Hle m ltac:(by left))); done.
Qed.

Lemma ranked_elem scorer (query : string) (titles : list string) (n : nat)
    (m : Match) :
  m ∈ take n (ranked scorer query titles) ->
  exists (i : nat) (t : string), titles !! i = Some t /\ m = (t, scorer query t, i).
Proof.
  unfold ranked. intros Hm.
  assert (Hs : m ∈ sort_matches
                     (imap (fun i choice => (choice, scorer query choice, i)) titles)).
  { apply elem_of_take in Hm as (i & Hi & _). apply list_elem_of_lookup. eauto. }
  rewrite sort_matches_perm in Hs.
  apply elem_of_lookup_imap in Hs as (i & t & -> & Ht). eauto.
Qed.

(** [process.extract] with a limit that is not negative. *)
Lemma process_extract_limit scorer (query : string) (titles : list string) (n : nat) :
  process_extract scorer query titles (Some (Z.of_nat n))
  = Ok (take n (ranked scorer query titles)).
Proof.
  unfold process_extract.
  assert (H : (Z.of_nat n <? 0)%Z = false) by (apply Z.ltb_ge; lia).
  by rewrite H, Nat2Z.id.
Qed.

(** ** The loop of [search] *)

Lemma collect_spec (index : list (string * string)) (threshold : Qc)
    (matches : list Match) :
  (forall m, m ∈ matches -> exists text, index !! snd m = Some (fst (fst m), text)) ->
  exists hits : list SearchHit,
    collect index threshold matches = Ok hits /\
    (length hits <= length matches)%nat /\
    (forall h, h ∈ hits ->
       exists m text, m ∈ matches /\ Qc_leb threshold (match_score m) = true /\
                      index !! snd m = Some (fst (fst m), text) /\ h = hit_of m text) /\
    (forall m, m ∈ matches -> Qc_leb threshold (match_score m) = true ->
       exists text, index !! snd m = Some (fst (fst m), text) /\ hit_of m text ∈ hits) /\
    (forall m rest, matches = m :: rest -> Qc_leb threshold (match_score m) = true ->
       exists text, index !! snd m = Some (fst (fst m), text) /\
                    head hits = Some (hit_of m text)).
Proof.
  induction matches as [|[[t s] i] matches IH]; intros Hidx.
  { exists []. simpl. repeat split; try done; intros; by try set_solver. }
  destruct IH as (hits & Hc & Hlen & Hsound & Hcomplete & _).
  { intros m Hm. apply Hidx. by right. }
  destruct (Hidx (t, s, i) ltac:(by left)) as (text & Htext). simpl in Htext.
  simpl. rewrite Hc, Htext.
  destruct (Qc_leb threshold s) eqn:Hs.
  - exists (hit_of (t, s, i) text :: hits). repeat split.
    + simpl. lia.
    + intros h [->|Hh]%elem_of_cons.
      * exists (t, s, i), text. repeat split; try done. by left.
      * destruct (Hsound h Hh) as (m & text' & ? & ? & ? & ?).
        exists m, text'. repeat split; try done. by right.
    + intros m [->|Hm]%elem_of_cons Hthr.
      * exists text. split; [done|]. by left.
      * destruct (Hcomplete m Hm Hthr) as (text' & ? & ?).
        exists text'. split; [done|]. by right.
    + intros m rest [= <- <-] _. by exists text.
  - exists hits. repeat split.
    + simpl. lia.
    + intros h Hh. destruct (Hsound h Hh) as (m & text' & ? & ? & ? & ?).
      exists m, text'. repeat split; try done. by right.
    + intros m [->|Hm]%elem_of_cons Hthr.
      * unfold match_score in Hthr. simpl in Hthr. congruence.
      * by apply Hcomplete.
    + intros m rest [= <- <-] Hthr. unfold match_score in Hthr. simpl in Hthr.
      congruence.
Qed.

Lemma index_lookup_title (index : list (string * string)) (i : nat) (t : string) :
  map fst index !! i = Some t <-> exists text, index !! i = Some (t, text).
Proof.
  change (map fst index) with (fst <$> index). rewrite list_lookup_fmap.
  destruct (index !! i) as [[t' text]|]; simpl; split.
  - intros [= ->]. eauto.
  - by intros (text' & [= -> ->]).
  - done.
  - by intros (? & ?).
Qed.

(** [search] raises nothing, and its results are the matches of
    [process.extract] that reach the threshold, in their order. *)
Lemma search_spec scorer (index : list (string * string)) (query : string)
    (threshold : Qc) (max_results : nat) :
  let matches := take max_results (ranked scorer query (map fst index)) in
  exists hits : list SearchHit,
    search scorer index query threshold (Z.of_nat max_results) = Ok hits /\
    (length hits <= length matches)%nat /\
    (forall h, h ∈ hits ->
       exists m text, m ∈ matches /\ Qc_leb threshold (match_score m) = true /\
                      index !! snd m = Some (fst (fst m), text) /\ h = hit_of m text) /\
    (forall m, m ∈ matches -> Qc_leb threshold (match_score m) = true ->
       exists text, index !! snd m = Some (fst (fst m), text) /\ hit_of m text ∈ hits) /\
    (forall m rest, matches = m :: rest -> Qc_leb threshold (match_score m) = true ->
       exists text, index !! snd m = Some (fst (fst m), text) /\
                    head hits = Some (hit_of m text)).
Proof.
  intros matches. unfold search. rewrite process_extract_limit. fold matches.
  apply collect_spec.
  intros m Hm. apply ranked_elem in Hm as (i & t & Ht & ->).
  simpl. by apply index_lookup_title.
Qed.

(** C7: for every scorer, index, query, threshold and number [max_results],
    [search] raises nothing and returns at most [max_results] results; every
    result is an indexed title with the score the scorer gives it, and that
    score is at least the threshold. When every indexed title scores below
    the threshold (no similar title), the result is the empty list. *)
Theorem search_threshold_and_cap scorer (index : list (string * string))
    (query : string) (threshold : Qc) (max_results : nat) :
  exists hits : list SearchHit,
    search scorer index query threshold (Z.of_nat max_results) = Ok hits /\
    (length hits <= max_results)%nat /\
    (forall h, h ∈ hits ->
       (threshold <= score h)%Qc /\
       score h = scorer query (title h) /\
       exists i text, index !! i = Some (title h, text)) /\
    ((forall t, t ∈ map fst index -> (scorer query t < threshold)%Qc) ->
     hits = []).
Proof.
  destruct (search_spec scorer index query threshold max_results)
    as (hits & Hs & Hlen & Hsound & _).
  exists hits. split; [done|]. split.
  { etrans; [apply Hlen|]. rewrite length_take. lia. }
  assert (Hhit : forall h, h ∈ hits ->
            (threshold <= score h)%Qc /\ score h = scorer query (title h) /\
            exists i text, index !! i = Some (title h, text)).
  { intros h Hh. destruct (Hsound h Hh) as (m & text & Hm & Hthr & Hidx & ->).
    apply ranked_elem in Hm as (i & t & Ht & ->).
    simpl in *. split; [by apply Qc_leb_le|]. split; [done|]. eauto. }
  split; [done|].
  intros Hlow. destruct hits as [|h hits]; [done|]. exfalso.
  destruct (Hhit h ltac:(by left)) as (Hthr & Hsc & i & text & Hi).
  assert (Ht : title h ∈ map fst index).
  { apply list_elem_of_lookup. exists i. apply index_lookup_title. eauto. }
  specialize (Hlow _ Ht). rewrite <- Hsc in Hlow.
  by apply Qclt_not_le in Hlow.
Qed.

(** The query of the specification on an index without a similar title. *)
Lemma search_threshold_and_cap_witness :
  exists hits : list SearchHit,
    search partial_ratio small_index "xyz123nomatch" (Qc_of_Z 60) 10 = Ok hits /\
    (length hits <= 10)%nat /\
    hits = [].
Proof.
  destruct (search_threshold_and_cap partial_ratio small_index "xyz123nomatch"
              (Qc_of_Z 60) 10) as (hits & Hs & Hlen & _ & Hnone).
  exists hits. split; [exact Hs|]. split; [exact Hlen|].
  apply Hnone. intros t Ht. simpl in Ht.
  apply elem_of_cons in Ht as [->|Ht]; [vm_compute; reflexivity|].
  apply elem_of_cons in Ht as [->|Ht]; [vm_compute; reflexivity|].
  apply elem_of_cons in Ht as [->|Ht]; [vm_compute; reflexivity|].
  apply elem_of_nil in Ht. destruct Ht.
Defined.

(** ** The preview *)


Lemma substring_all (s : string) : String.substring 0 (String.length s) s = s.
Proof. induction s as [|c s IH]; simpl; [done|]. by rewrite IH. Qed.





(** ** The reference scorer *)

Lemma lcs_spec_cons (x y : ascii) (a b : list ascii) :
  lcs_spec (x :: a) (y :: b)
  = if Ascii.eqb x y then S (lcs_spec a b)
    else Nat.max (lcs_spec a (y :: b)) (lcs_spec (x :: a) b).
Proof. reflexivity. Qed.

Lemma lcs_spec_nil_r (a : list ascii) : lcs_spec a [] = 0%nat.
Proof. by destruct a. Qed.

Lemma tails_head {A} (l : list A) : hd [] (tails l) = l.
Proof. by destruct l. Qed.

Lemma hd_map_tails (f : list ascii -> nat) (l : list ascii) :
  hd 0%nat (map f (tails l)) = f l.
Proof. by destruct l. Qed.

Lemma lcs_row_spec (x : ascii) (a b : list ascii) :
  lcs_row x b (map (lcs_spec a) (tails b)) = map (lcs_spec (x :: a)) (tails b).
Proof.
  induction b as [|y b IH].
  - simpl. done.
  - change (tails (y :: b)) with ((y :: b) :: tails b).
    rewrite !map_cons. simpl lcs_row. simpl tail. rewrite IH.
    rewrite !hd_map_tails. simpl hd. by rewrite lcs_spec_cons.
Qed.

Lemma lcs_table_spec (a b : list ascii) :
  lcs_table a b = map (lcs_spec a) (tails b).
Proof.
  unfold lcs_table. induction a as [|x a IH].
  - induction b as [|y b IHb]; simpl in *; [done|]. by rewrite <- IHb.
  - cbn [foldr]. rewrite IH. apply lcs_row_spec.
Qed.

Lemma lcs_is_lcs_spec (a b : list ascii) : lcs a b = lcs_spec a b.
Proof. unfold lcs. rewrite lcs_table_spec. apply hd_map_tails. Qed.

Lemma lcs_spec_le_l (a b : list ascii) : (lcs_spec a b <= length a)%nat.
Proof.
  revert b. induction a as [|x a IH]; intros b; [simpl; lia|].
  induction b as [|y b IHb]; [simpl; lia|].
  rewrite lcs_spec_cons. destruct (Ascii.eqb x y).
  - specialize (IH b). simpl. lia.
  - specialize (IH (y :: b)). simpl in *. lia.
Qed.

Lemma lcs_spec_le_r (a b : list ascii) : (lcs_spec a b <= length b)%nat.
Proof.
  revert b. induction a as [|x a IH]; intros b; [simpl; lia|].
  induction b as [|y b IHb]; [simpl; lia|].
  rewrite lcs_spec_cons. destruct (Ascii.eqb x y).
  - specialize (IH b). simpl. lia.
  - specialize (IH (y :: b)). simpl in *. lia.
Qed.

Lemma lcs_spec_refl (a : list ascii) : lcs_spec a a = length a.
Proof.
  induction a as [|x a IH]; [done|].
  rewrite lcs_spec_cons, Ascii.eqb_refl, IH. done.
Qed.

Lemma Zpos_of_nat (n : nat) : n <> 0%nat -> Z.pos (Pos.of_nat n) = Z.of_nat n.
Proof. intros Hn. rewrite <- positive_nat_Z, Nat2Pos.id; done. Qed.

(** *** Rounding to doubles *)

Lemma binade_le (p q : positive) :
  (binade p q <= Z.log2 (Z.pos p) - Z.log2 (Z.pos q))%Z.
Proof. unfold binade. destruct (_ <=? _)%Z; lia. Qed.

Lemma round_pos_nonneg (p q : positive) : (0 <= round_pos p q)%Q.
Proof.
  unfold round_pos, Qle. cbn [Qnum Qden]. rewrite Z.mul_1_r, Z.mul_0_l.
  set (shift := (52 - binade p q)%Z).
  set (num := (Z.pos p * 2 ^ Z.max 0 shift)%Z).
  set (den := (Z.pos q * 2 ^ Z.max 0 (- shift))%Z).
  assert (Hden : (0 < den)%Z).
  { unfold den. apply Z.mul_pos_pos; [lia|]. apply Z.pow_pos_nonneg; lia. }
  assert (Hnum : (0 <= num)%Z).
  { unfold num. apply Z.mul_nonneg_nonneg; [lia|]. apply Z.pow_nonneg. lia. }
  assert (Hn0 : (0 <= num / den)%Z) by (apply Z.div_pos; lia).
  apply Z.mul_nonneg_nonneg; [|apply Z.pow_nonneg; lia].
  destruct (_ <? _)%Z; [done|]. destruct (_ <? _)%Z; [lia|].
  destruct (Z.even _); lia.
Qed.

(** Rounding does not pass an integer that is at most [2^7]: such an
    integer lies on the grid of the doubles around [p / q]. *)
Lemma round_pos_le (c : Z) (p q : positive) :
  (0 < c <= 128)%Z ->
  (Z.pos p <= c * Z.pos q)%Z ->
  (round_pos p q <= inject_Z c)%Q.
Proof.
  intros Hc Hle.
  assert (Hlog : (Z.log2 (Z.pos p) - Z.log2 (Z.pos q) <= 7)%Z).
  { assert (Hq := Z.log2_spec (Z.pos q) ltac:(lia)).
    assert (Hp : (Z.pos p < 2 ^ (Z.log2 (Z.pos q) + 8))%Z).
    { replace (Z.log2 (Z.pos q) + 8)%Z with (Z.succ (Z.log2 (Z.pos q)) + 7)%Z by lia.
      rewrite Z.pow_add_r by (pose proof (Z.log2_nonneg (Z.pos q)); lia).
      change (2 ^ 7)%Z with 128%Z. nia. }
    apply Z.log2_lt_pow2 in Hp; lia. }
  pose proof (binade_le p q) as Hk.
  unfold round_pos.
  set (shift := (52 - binade p q)%Z).
  assert (Hshift : (0 <= shift)%Z) by (unfold shift; lia).
  rewrite (Z.max_r 0 shift) by lia. rewrite (Z.max_l 0 (- shift)) by lia.
  change (2 ^ 0)%Z with 1%Z. rewrite !Z.mul_1_r.
  set (S := (2 ^ shift)%Z).
  assert (HS : (0 < S)%Z) by (apply Z.pow_pos_nonneg; lia).
  unfold Qle. cbn [Qnum Qden inject_Z]. rewrite Z.mul_1_r, Z2Pos.id by done.
  pose proof (Z.div_mod (Z.pos p * S) (Z.pos q) ltac:(lia)) as Hdm.
  pose proof (Z.mod_pos_bound (Z.pos p * S) (Z.pos q) ltac:(lia)) as Hr.
  set (n0 := (Z.pos p * S / Z.pos q)%Z) in *.
  set (r := ((Z.pos p * S) mod Z.pos q)%Z) in *.
  assert (Hn0 : (n0 <= c * S)%Z) by nia.
  assert (Hup : (0 < r -> n0 + 1 <= c * S)%Z) by nia.
  destruct (Z.ltb_spec (2 * r) (Z.pos q)); [done|].
  destruct (Z.ltb_spec (Z.pos q) (2 * r)); [apply Hup; lia|].
  destruct (Z.even n0); [done|]. apply Hup. lia.
Qed.

Lemma round_double_range (c : Z) (x : Qc) :
  (0 < c <= 128)%Z ->
  (Qc_of_Z 0 <= x <= Qc_of_Z c)%Qc ->
  (Qc_of_Z 0 <= round_double x <= Qc_of_Z c)%Qc.
Proof.
  intros Hc [Hlo Hhi]. unfold round_double.
  destruct x as [[n d] Hcanon]. unfold Qcle in *.
  cbn [this Q2Qc Qc_of_Z Qnum Qden] in *.
  destruct n as [|p|p]; cbn [this Q2Qc Qc_of_Z]; rewrite ?Qred_correct.
  - split; [apply Qle_refl|]. unfold Qle. simpl. lia.
  - split; [apply round_pos_nonneg|].
    apply round_pos_le; [done|]. unfold Qle in Hhi. simpl in Hhi. lia.
  - unfold Qle in Hlo. simpl in Hlo. lia.
Qed.

(** One third is rounded as Python rounds it, and so is the score of two
    strings of five characters that share one: 19.999999999999996. *)
Example round_double_ex :
  round_double (Q2Qc (1 # 3)) = Q2Qc (6004799503160661 # 18014398509481984) /\
  ratio (list_ascii_of_string "abcde") (list_ascii_of_string "xyzwa")
  = Q2Qc (5629499534213119 # 281474976710656).
Proof. split; apply Qc_is_canon; vm_compute; reflexivity. Qed.

Lemma ratio_range (s1 s2 : list ascii) :
  (Qc_of_Z 0 <= ratio s1 s2)%Qc /\ (ratio s1 s2 <= Qc_of_Z 100)%Qc.
Proof.
  unfold ratio.
  set (maximum := (length s1 + length s2)%nat).
  set (dist := (maximum - 2 * lcs s1 s2)%nat).
  set (norm_dist := if (maximum =? 0)%nat then Qc_of_Z 0 else _).
  assert (Hnd : (Qc_of_Z 0 <= norm_dist <= Qc_of_Z 1)%Qc).
  { unfold norm_dist. destruct (Nat.eqb_spec maximum 0) as [|Hne]; [done|].
    apply (round_double_range 1); [lia|].
    unfold Qcle. cbn [this Q2Qc Qc_of_Z]. rewrite Qred_correct.
    unfold Qle. cbn [Qnum Qden inject_Z]. rewrite (Zpos_of_nat _ Hne).
    unfold dist. lia. }
  clearbody norm_dist. rewrite Z2Qc_inj_0, Z2Qc_inj_1 in *.
  destruct Hnd as [Hnd0 Hnd1].
  assert (Hx : (0 <= 1 - norm_dist <= 1)%Qc).
  { split.
    - by apply Qcle_minus_iff in Hnd1.
    - apply Qcle_minus_iff.
      replace (1 + - (1 - norm_dist))%Qc with norm_dist by ring. done. }
  rewrite <- Z2Qc_inj_0, <- Z2Qc_inj_1 in Hx.
  apply (round_double_range 1) in Hx; [|lia].
  rewrite Z2Qc_inj_0, Z2Qc_inj_1 in Hx. destruct Hx as [Hns0 Hns1].
  rewrite <- Z2Qc_inj_0.
  apply (round_double_range 100); [lia|]. rewrite Z2Qc_inj_0.
  assert (H100 : (0 <= Qc_of_Z 100)%Qc) by done.
  split.
  - rewrite <- (Qcmult_0_l (Qc_of_Z 100)). by apply Qcmult_le_compat_r.
  - rewrite <- (Qcmult_1_l (Qc_of_Z 100)) at 2. by apply Qcmult_le_compat_r.
Qed.

Lemma ratio_refl (s : list ascii) : s <> [] -> ratio s s = Qc_of_Z 100.
Proof.
  intros Hs. unfold ratio.
  assert (Hne : (length s + length s)%nat <> 0%nat) by (destruct s; simpl; [done | lia]).
  destruct (Nat.eqb_spec (length s + length s) 0) as [|_]; [done|].
  rewrite lcs_is_lcs_spec, lcs_spec_refl.
  replace (length s + length s - 2 * length s)%nat with 0%nat by lia.
  assert (H0 : Q2Qc (Z.of_nat 0 # Pos.of_nat (length s + length s)) = Qc_of_Z 0).
  { apply Qc_is_canon. cbn [this Q2Qc Qc_of_Z]. by rewrite Qred_correct. }
  rewrite H0. apply Qc_is_canon. vm_compute. reflexivity.
Qed.

Lemma Qc_max_range (lo hi a b : Qc) :
  (lo <= a <= hi)%Qc -> (lo <= b <= hi)%Qc -> (lo <= Qc_max a b <= hi)%Qc.
Proof. unfold Qc_max. by destruct (Qc_leb a b). Qed.

Lemma fold_max_range (lo hi : Qc) (l : list Qc) :
  (lo <= hi)%Qc ->
  (forall x, x ∈ l -> (lo <= x <= hi)%Qc) ->
  (lo <= foldr Qc_max lo l <= hi)%Qc.
Proof.
  intros Hlo. induction l as [|x l IH]; intros Hl; simpl.
  { split; [apply Qcle_refl | done]. }
  apply Qc_max_range.
  - apply Hl. by left.
  - apply IH. intros y Hy. apply Hl. by right.
Qed.

Lemma fold_max_top (lo hi : Qc) (l : list Qc) :
  (lo <= hi)%Qc ->
  (forall x, x ∈ l -> (lo <= x <= hi)%Qc) ->
  hi ∈ l ->
  foldr Qc_max lo l = hi.
Proof.
  intros Hlo. induction l as [|x l IH]; intros Hl Hin; simpl.
  { by apply elem_of_nil in Hin. }
  assert (Hrest : (lo <= foldr Qc_max lo l <= hi)%Qc).
  { apply fold_max_range; [done|]. intros y Hy. apply Hl. by right. }
  unfold Qc_max at 1. apply elem_of_cons in Hin as [<-|Hin].
  - destruct (Qc_leb hi (foldr Qc_max lo l)) eqn:Hc; [|done].
    apply Qc_leb_le in Hc. apply Qcle_antisym; [apply Hrest | done].
  - rewrite (IH (fun y Hy => Hl y ltac:(by right)) Hin).
    destruct (Qc_leb x hi) eqn:Hc; [done|].
    apply Qc_leb_gt in Hc. destruct (Hl x ltac:(by left)) as [_ Hx].
    by apply Qclt_not_le in Hc.
Qed.

Lemma partial_ratio_impl_range (s1 s2 : list ascii) :
  (Qc_of_Z 0 <= partial_ratio_impl s1 s2 <= Qc_of_Z 100)%Qc.
Proof.
  unfold partial_ratio_impl. apply fold_max_range; [done|].
  intros x (w & -> & _)%list_elem_of_fmap. apply ratio_range.
Qed.

Lemma partial_ratio_range (q t : string) :
  (Qc_of_Z 0 <= partial_ratio q t)%Qc /\ (partial_ratio q t <= Qc_of_Z 100)%Qc.
Proof.
  unfold partial_ratio.
  assert (H100 : (Qc_of_Z 0 <= Qc_of_Z 100 <= Qc_of_Z 100)%Qc) by done.
  destruct (list_ascii_of_string q) as [|c1 l1] eqn:H1;
    destruct (list_ascii_of_string t) as [|c2 l2] eqn:H2; try done;
    destruct (_ <=? _)%nat; destruct (_ && _);
    try apply Qc_max_range; apply partial_ratio_impl_range.
Qed.

Lemma char_in_elem (s : list ascii) (c : ascii) : c ∈ s -> char_in s (Some c) = true.
Proof.
  intros Hc. simpl. apply existsb_exists. exists c.
  split; [by apply list_elem_of_In | apply Ascii.eqb_refl].
Qed.

(** A window that is the query itself is among the compared windows. *)
Lemma window_of_substring (pre q post : list ascii) :
  q <> [] -> q ∈ windows q (pre ++ q ++ post).
Proof.
  intros Hq. unfold windows.
  set (s2 := pre ++ q ++ post).
  assert (Hlen : length s2 = (length pre + length q + length post)%nat).
  { unfold s2. rewrite !length_app. lia. }
  assert (Hq1 : (1 <= length q)%nat) by (destruct q; simpl; [done | lia]).
  destruct post as [|p post].
  - (* the query ends the title: the suffix window *)
    apply elem_of_app. right. apply elem_of_app. right.
    apply list_elem_of_fmap. exists (length pre). split.
    + unfold s2. rewrite drop_app_length. by rewrite app_nil_r.
    + apply list_elem_of_In, filter_In. split.
      * apply in_seq. simpl in Hlen. lia.
      * destruct q as [|c q]; [done|]. unfold s2.
        rewrite lookup_app_r, Nat.sub_diag by lia. simpl lookup.
        apply char_in_elem. by left.
  - (* the query lies inside the title: a window of its length *)
    apply elem_of_app. right. apply elem_of_app. left.
    apply list_elem_of_fmap. exists (length pre). split.
    + unfold s2. rewrite drop_app_length. by rewrite take_app_length.
    + apply list_elem_of_In, filter_In. split.
      * apply in_seq. simpl in Hlen. lia.
      * unfold s2. rewrite lookup_app_r by lia.
        replace (length pre + length q - 1 - length pre)%nat
          with (length q - 1)%nat by lia.
        rewrite lookup_app_l by lia.
        destruct (lookup_lt_is_Some_2 q (length q - 1)) as [c Hc]; [lia|].
        rewrite Hc. apply char_in_elem. apply list_elem_of_lookup. eauto.
Qed.

Lemma partial_ratio_impl_substring (pre q post : list ascii) :
  q <> [] -> partial_ratio_impl q (pre ++ q ++ post) = Qc_of_Z 100.
Proof.
  intros Hq. unfold partial_ratio_impl. apply fold_max_top; [done| |].
  - intros x (w & -> & _)%list_elem_of_fmap. apply ratio_range.
  - apply list_elem_of_fmap. exists q. split; [by rewrite ratio_refl|].
    by apply window_of_substring.
Qed.

Lemma list_ascii_of_string_app (s1 s2 : string) :
  list_ascii_of_string (s1 ++ s2)%string
  = list_ascii_of_string s1 ++ list_ascii_of_string s2.
Proof. induction s1 as [|c s1 IH]; simpl; [done|]. by rewrite IH. Qed.

(** The reference scorer has the partial-ratio semantics of the
    specification. *)
Lemma partial_ratio_has_semantics : partial_ratio_semantics partial_ratio.
Proof.
  split; [apply partial_ratio_range|].
  intros q t Hq (pre & post & ->). unfold partial_ratio.
  rewrite !list_ascii_of_string_app.
  set (lq := list_ascii_of_string q).
  set (lpre := list_ascii_of_string pre).
  set (lpost := list_ascii_of_string post).
  assert (Hlq : lq <> []) by (unfold lq; by destruct q).
  assert (Hle : (length lq <=? length (lpre ++ lq ++ lpost))%nat = true).
  { apply Nat.leb_le. rewrite !length_app. lia. }
  rewrite Hle, (partial_ratio_impl_substring _ _ _ Hlq).
  rewrite bool_decide_eq_true_2 by done. simpl.
  destruct lq as [|c lq]; [done|]. by destruct (lpre ++ (c :: lq) ++ lpost).
Qed.

(** ** Exact matches *)

Lemma filter_lookup_count {A} (P : A -> bool) (l : list A) (i : nat) (x : A) :
  l !! i = Some x -> P x = true ->
  List.filter P l !! length (List.filter P (take i l)) = Some x.
Proof.
  revert i. induction l as [|y l IH]; intros [|i] Hi HP; simpl in *; try done.
  - injection Hi as ->. by rewrite HP.
  - destruct (P y); simpl; by apply IH.
Qed.

Lemma perfect_before_scored scorer (query : string) (titles : list string)
    (g : nat -> string -> Match) (i : nat) :
  (forall j t, match_score (g j t) = scorer query t) ->
  length (List.filter (fun m => bool_decide (match_score m = Qc_of_Z 100))
                      (take i (imap g titles)))
  = perfect_before scorer query titles i.
Proof.
  unfold perfect_before. revert g i.
  induction titles as [|t titles IH]; intros g [|i] Hg; simpl; try done.
  rewrite Hg. destruct (bool_decide _); simpl; rewrite (IH (g ∘ S)); try done.
  all: intros j t'; apply Hg.
Qed.

(** C8, as the specification states it, fails: with eleven indexed titles
    that all contain the query [Project Alpha], the default cap of ten
    results keeps the first ten titles of the index, and the title equal to
    the query, indexed last, has no result. *)
Lemma exact_title_cut_by_cap :
  "Project Alpha"%string ∈ map fst crowded_index /\
  partial_ratio "Project Alpha" "Project Alpha" = Qc_of_Z 100 /\
  match search partial_ratio crowded_index "Project Alpha" (Qc_of_Z 60) 10 with
  | Ok hits =>
      length hits = 10%nat /\
      forallb (fun h => negb (String.eqb (title h) "Project Alpha")) hits = true
  | Raise _ => False
  end.
Proof.
  split; [|split].
  - apply list_elem_of_In. simpl. tauto.
  - apply Qc_is_canon. vm_compute. reflexivity.
  - vm_compute. split; reflexivity.
Qed.

(** C8, amended. Under partial-ratio semantics a non-empty query that
    equals an indexed title [t], or is a substring of it, gives [t] the
    score 100. For a threshold of at most 100, [search] returns a result for
    [t] with score 100 whenever fewer than [max_results] titles that also
    score 100 stand before [t] in the index (the cap keeps the matches of
    the highest score in index order); and whenever [max_results] is at
    least 1 its first result has score 100, so [search("Project Alpha",
    threshold=60)] on an index that contains the title returns a result
    with score 100. *)
Theorem exact_match_scores_100 scorer (index : list (string * string))
    (query : string) (threshold : Qc) (max_results : nat)
    (i : nat) (t text : string) :
  partial_ratio_semantics scorer ->
  query <> ""%string ->
  is_substring query t ->
  index !! i = Some (t, text) ->
  (threshold <= Qc_of_Z 100)%Qc ->
  scorer query t = Qc_of_Z 100 /\
  ((perfect_before scorer query (map fst index) i < max_results)%nat ->
   exists hits : list SearchHit,
     search scorer index query threshold (Z.of_nat max_results) = Ok hits /\
     MkSearchHit t (Qc_of_Z 100) (preview text) ∈ hits) /\
  ((0 < max_results)%nat ->
   exists (hits : list SearchHit) (h : SearchHit),
     search scorer index query threshold (Z.of_nat max_results) = Ok hits /\
     head hits = Some h /\ score h = Qc_of_Z 100).
Proof.
  intros [Hrange Hperfect] Hq Hsub Hi Hthr.
  assert (Hst : scorer query t = Qc_of_Z 100) by by apply Hperfect.
  split; [done|].
  destruct (search_spec scorer index query threshold max_results)
    as (hits & Hs & _ & _ & Hcomplete & Hhead).
  set (g := fun (j : nat) (choice : string) => (choice, scorer query choice, j) : Match).
  set (scored := imap g (map fst index)).
  set (is_top := fun m : Match => bool_decide (match_score m = Qc_of_Z 100)).
  assert (Hsort : sort_matches scored
            = List.filter is_top scored ++
              sort_matches (List.filter (fun m => negb (is_top m)) scored)).
  { apply sort_matches_top_first.
    intros m (j & t' & -> & _)%elem_of_lookup_imap. apply Hrange. }
  assert (Hei : scored !! i = Some (t, Qc_of_Z 100, i)).
  { unfold scored. rewrite list_lookup_imap.
    change (map fst index) with (fst <$> index).
    rewrite list_lookup_fmap, Hi. simpl. unfold g. by rewrite Hst. }
  assert (Htop : List.filter is_top scored
                   !! perfect_before scorer query (map fst index) i
                 = Some (t, Qc_of_Z 100, i)).
  { rewrite <- (perfect_before_scored scorer query (map fst index) g i) by done.
    apply filter_lookup_count; [done|]. by apply bool_decide_eq_true. }
  assert (Hleb : Qc_leb threshold (Qc_of_Z 100) = true) by by apply Qc_leb_le.
  split.
  - intros Hcap. exists hits. split; [done|].
    destruct (Hcomplete (t, Qc_of_Z 100, i)) as (text' & Hi' & Hin).
    + change (ranked scorer query (map fst index)) with (sort_matches scored).
      rewrite Hsort. apply elem_of_take. exists (perfect_before scorer query (map fst index) i).
      split; [|done]. by apply lookup_app_l_Some.
    + done.
    + simpl in Hi'. rewrite Hi in Hi'. by injection Hi' as <-.
  - intros Hcap.
    destruct (List.filter is_top scored) as [|m0 tops] eqn:Htops; [done|].
    assert (Hm0 : match_score m0 = Qc_of_Z 100).
    { assert (Hin : In m0 (List.filter is_top scored)) by (rewrite Htops; by left).
      apply filter_In in Hin as [_ Hin]. by apply bool_decide_eq_true in Hin. }
    destruct max_results as [|n]; [lia|].
    destruct (Hhead m0 (take n (tops ++
                 sort_matches (List.filter (fun m => negb (is_top m)) scored))))
      as (text0 & _ & Hh).
    + change (ranked scorer query (map fst index)) with (sort_matches scored).
      by rewrite Hsort.
    + by rewrite Hm0.
    + exists hits, (hit_of m0 text0). by split.
Qed.

Lemma exact_match_scores_100_witness :
  partial_ratio "Project Alpha" "Project Alpha" = Qc_of_Z 100 /\
  (exists hits : list SearchHit,
     search partial_ratio small_index "Project Alpha" (Qc_of_Z 60) 10 = Ok hits /\
     MkSearchHit "Project Alpha" (Qc_of_Z 100) (preview "Kickoff notes") ∈ hits) /\
  (exists (hits : list SearchHit) (h : SearchHit),
     search partial_ratio small_index "Project Alpha" (Qc_of_Z 60) 10 = Ok hits /\
     head hits = Some h /\ score h = Qc_of_Z 100).
Proof.
  destruct (exact_match_scores_100 partial_ratio small_index "Project Alpha"
              (Qc_of_Z 60) 10 0 "Project Alpha" "Kickoff notes")
    as (Hscore & Hfound & Hfirst).
  - exact partial_ratio_has_semantics.
  - discriminate.
  - exists ""%string, ""%string. reflexivity.
  - reflexivity.
  - vm_compute. discriminate.
  - split; [exact Hscore|]. split.
    + apply Hfound. unfold perfect_before. simpl. lia.
    + apply Hfirst. lia.
Defined.

End SearchProps.
(** * Further properties of the search *)

Module SearchExtras.
Import Search SearchSpec SearchProps.
Local Open Scope list_scope.

(** ** The ranking of the results *)

Lemma insert_match_sorted (m : Match) (l : list Match) :
  StronglySorted falling l -> StronglySorted falling (insert_match m l).
Proof.
  induction 1 as [|m' l Hl IH Hall]; simpl.
  { by repeat constructor. }
  destruct (Qc_leb (match_score m') (match_score m)) eqn:Hc.
  - apply Qc_leb_le in Hc. constructor; [by constructor|].
    constructor; [done|].
    eapply Forall_impl; [exact Hall|]. intros x Hx. unfold falling in *.
    by eapply Qcle_trans.
  - apply Qc_leb_gt in Hc. constructor; [done|].
    rewrite insert_match_perm. constructor; [|done].
    by apply Qclt_le_weak.
Qed.

Lemma sort_matches_sorted (l : list Match) : StronglySorted falling (sort_matches l).
Proof.
  induction l as [|m l IH]; simpl; [constructor | by apply insert_match_sorted].
Qed.

Lemma StronglySorted_take_falling (n : nat) (l : list Match) :
  StronglySorted falling l -> StronglySorted falling (take n l).
Proof.
  intros Hl. revert n. induction Hl as [|m l Hl IH Hall]; intros [|n]; simpl;
    try constructor; [done|].
  apply Forall_forall. intros x Hx.
  apply elem_of_take in Hx as (i & Hi & _).
  eapply Forall_forall in Hall; [exact Hall|].
  apply list_elem_of_lookup. eauto.
Qed.

Lemma StronglySorted_filter_falling (P : Match -> bool) (l : list Match) :
  StronglySorted falling l -> StronglySorted falling (List.filter P l).
Proof.
  induction 1 as [|m l Hl IH Hall]; simpl; [constructor|].
  destruct (P m); [|done]. constructor; [done|].
  apply Forall_forall. intros x Hx.
  apply list_elem_of_In, filter_In in Hx as [Hx _]. apply list_elem_of_In in Hx.
  by eapply Forall_forall in Hall.
Qed.

Lemma sublist_List_filter {A} (P : A -> bool) (l : list A) :
  sublist (List.filter P l) l.
Proof.
  induction l as [|x l IH]; simpl; [constructor|].
  destruct (P x); by constructor.
Qed.

(** The results are the matches that reach the threshold, one by one. *)
Lemma collect_filter (index : list (string * string)) (threshold : Qc)
    (matches : list Match) :
  (forall m, m ∈ matches -> exists text, index !! snd m = Some (fst (fst m), text)) ->
  exists hits : list SearchHit,
    collect index threshold matches = Ok hits /\
    Forall2 (fun h m => exists text, index !! snd m = Some (fst (fst m), text) /\
                                      h = hit_of m text)
            hits
            (List.filter (fun m => Qc_leb threshold (match_score m)) matches).
Proof.
  induction matches as [|[[t s] i] matches IH]; intros Hidx.
  { exists []. by split; [|constructor]. }
  destruct IH as (hits & Hc & Hall).
  { intros m Hm. apply Hidx. by right. }
  destruct (Hidx (t, s, i) ltac:(by left)) as (text & Htext). simpl in Htext.
  simpl. rewrite Hc, Htext. unfold match_score at 1. simpl.
  destruct (Qc_leb threshold s).
  - eexists. split; [reflexivity|]. constructor; [|done]. by exists text.
  - by exists hits.
Qed.

(** X18: [search] raises exactly when [max_results] is negative (the
    [RuntimeError] of [process.extract]). Otherwise its results are ranked
    by falling score; each of them is built from an index entry of its own
    (no entry gives two results), with the title of the entry, the score
    the scorer gives that title and the preview of its content. There are
    no more results than [max_results] and than index entries: an empty
    index gives the empty list. *)
Theorem search_ranking scorer (index : list (string * string)) (query : string)
    (threshold : Qc) (max_results : Z) :
  (max_results < 0 ->
   search scorer index query threshold max_results = Raise OtherException) /\
  (0 <= max_results ->
   exists (hits : list SearchHit) (positions : list nat),
     search scorer index query threshold max_results = Ok hits /\
     NoDup positions /\
     Forall2 (fun h i => exists text,
                index !! i = Some (title h, text) /\
                score h = scorer query (title h) /\
                content h = preview text) hits positions /\
     StronglySorted (fun h1 h2 => (score h2 <= score h1)%Qc) hits /\
     (length hits <= Nat.min (Z.to_nat max_results) (length index))%nat).
Proof.
  split.
  { intros Hneg. unfold search, process_extract.
    apply Z.ltb_lt in Hneg. by rewrite Hneg. }
  intros Hpos. rewrite <- (Z2Nat.id max_results Hpos), Nat2Z.id.
  generalize (Z.to_nat max_results). clear max_results Hpos. intros max_results.
  unfold search. rewrite process_extract_limit.
  set (g := fun (j : nat) (choice : string) => (choice, scorer query choice, j) : Match).
  set (scored := imap g (map fst index)).
  change (ranked scorer query (map fst index)) with (sort_matches scored).
  set (matches := take max_results (sort_matches scored)).
  set (kept := List.filter (fun m => Qc_leb threshold (match_score m)) matches).
  assert (Helem : forall m, m ∈ matches ->
            exists i t, map fst index !! i = Some t /\ m = (t, scorer query t, i)).
  { intros m Hm. by apply (ranked_elem scorer query (map fst index) max_results). }
  destruct (collect_filter index threshold matches) as (hits & Hc & Hall).
  { intros m Hm. destruct (Helem m Hm) as (i & t & Ht & ->).
    simpl. by apply index_lookup_title. }
  fold kept in Hall.
  assert (Hsorted : StronglySorted falling kept).
  { apply StronglySorted_filter_falling, StronglySorted_take_falling,
      sort_matches_sorted. }
  assert (Hnodup : NoDup (snd <$> kept)).
  { assert (Hs : NoDup (snd <$> scored)).
    { unfold scored. rewrite fmap_imap.
      rewrite (imap_ext _ (fun j _ => j)) by done.
      rewrite imap_seq_0, list_fmap_id. apply NoDup_seq. }
    assert (Hsub : sublist kept (sort_matches scored)).
    { etrans; [apply sublist_List_filter|]. apply sublist_take. }
    apply (sublist_NoDup _ (snd <$> sort_matches scored));
      [by rewrite sort_matches_perm | by apply fmap_sublist]. }
  assert (Hk : forall m, m ∈ kept -> m ∈ matches).
  { intros m Hm. by apply list_elem_of_In, filter_In in Hm as [?%list_elem_of_In _]. }
  assert (Hlen : (length kept <= Nat.min max_results (length index))%nat).
  { etrans; [apply sublist_length, sublist_List_filter|]. unfold matches.
    rewrite length_take, (Permutation_length (sort_matches_perm scored)).
    unfold scored. rewrite length_imap, length_map. done. }
  clearbody kept.
  exists hits, (snd <$> kept). split; [exact Hc|]. split; [done|].
  split; [|split].
  - clear Hsorted Hnodup Hlen Hc. revert Hk.
    induction Hall as [|h m hs ms (text & Hi & ->) Hall IH]; intros Hk;
      [constructor|].
    rewrite fmap_cons. constructor.
    + destruct (Helem m (Hk m ltac:(by left))) as (i & t & _ & ->).
      exists text. by repeat split.
    + apply IH. intros m' Hm'. apply Hk. by right.
  - clear Hnodup Hlen Hk Hc. revert Hsorted.
    induction Hall as [|h m hs ms (text & Hi & ->) Hall IH]; intros Hs;
      [constructor|].
    apply StronglySorted_inv in Hs as [Hs Hm]. constructor; [by apply IH|].
    apply Forall_forall. intros h' Hh'.
    apply list_elem_of_lookup in Hh' as (k & Hk).
    destruct (Forall2_lookup_l _ _ _ _ _ Hall Hk) as (m' & Hm' & text' & _ & ->).
    eapply Forall_forall in Hm; [exact Hm|].
    apply list_elem_of_lookup. eauto.
  - apply Forall2_length in Hall. by rewrite Hall.
Qed.

End SearchExtras.
(** * Further properties of the vault *)

Module VaultExtras.
Import Vault VaultSpec VaultProps.

(** ** [update_note]: what it changes and what it leaves alone *)


(** X2: A path that is reported as missing, a directory, a read-only file and
    a file that cannot be decoded and is not cached: [update_note] returns
    [False] and the file system is as before. A missing file is never
    created. *)
Theorem update_note_fails_unchanged heading_search (p : Path) (text mode : string)
    (heading : option string) (self : VaultManager) (w : World) :
  let absolute_path := joinpath (vault_path self) p in
  (fs w !! absolute_path = None /\
   refuses (os w) SysStat absolute_path = false) \/
  (exists ct mt, fs w !! absolute_path = Some (MkNode KDir ct mt) /\
                 _note_cache self !! absolute_path = None) \/
  (exists ft ct mt, fs w !! absolute_path = Some (MkNode (KFile ft false) ct mt)) \/
  (exists wr ct mt, fs w !! absolute_path = Some (MkNode (KFile None wr) ct mt) /\
                    _note_cache self !! absolute_path = None) ->
  exists (self' : VaultManager) (w' : World),
    update_note heading_search p text mode heading (self, w)
    = (Ok false, (self', w')) /\
    fs w' = fs w.
Proof.
  intros absolute_path Hcase.
  rewrite update_note_unfold. cbv zeta. fold absolute_path.
  destruct Hcase as [[-> ->] | Hcase]; [by eexists _, _|].
  destruct (read_file_world absolute_path self w)
    as (r & self1 & w1 & -> & Hfs1 & _ & _ & _ & Hr).
  unfold text_read in Hr.
  destruct Hcase as [(ct & mt & Hfs & Hc) | [(ft & ct & mt & Hfs) |
                     (wr & ct & mt & Hfs & Hc)]];
    rewrite Hfs in *; simpl in *.
  - destruct r as [existing|]; [|by eexists _, _].
    destruct Hr as [_ [(? & _) | (_ & ? & _)]]; congruence.
  - destruct r as [existing|]; by eexists _, _.
  - destruct r as [existing|]; [|by eexists _, _].
    destruct Hr as [_ [(? & _) | (_ & ? & _)]]; congruence.
Qed.

Lemma update_note_fails_unchanged_witness :
  exists (self' : VaultManager) (w' : World),
    update_note no_heading (MkPath false ["missing.md"]) "new" "append" None
      (fresh_state "old" 100) = (Ok false, (self', w')) /\
    fs w' = fs (world_with "old" 100).
Proof.
  apply (update_note_fails_unchanged no_heading (MkPath false ["missing.md"])
           "new" "append" None (VaultManager_init vault_root) (world_with "old" 100)).
  left. split; vm_compute; reflexivity.
Defined.

(** The forward direction of [update_note_true]. *)
Lemma update_note_succeeds heading_search (p : Path) (text mode : string)
    (heading : option string) (self : VaultManager) (w : World)
    (ft : option string) (ct mt : Z) (existing : string) :
  let absolute_path := joinpath (vault_path self) p in
  is_absolute p = false ->
  fs w !! absolute_path = Some (MkNode (KFile ft true) ct mt) ->
  (_note_cache self !! absolute_path = Some existing \/
   _note_cache self !! absolute_path = None /\
   universal_newlines <$> ft = Some existing) ->
  exists (self' : VaultManager) (w' : World),
    update_note heading_search p text mode heading (self, w) = (Ok true, (self', w')) /\
    fs w' = <[absolute_path :=
                MkNode (KFile (Some (new_content_of heading_search existing text
                                       mode heading)) true) (clock w) (clock w)]> (fs w) /\
    clock w' = clock w /\
    vault_path self' = vault_path self /\
    _note_cache self' = del_if_present p (<[absolute_path := existing]> (_note_cache self)).
Proof.
  intros absolute_path Hrel Hfs Hex.
  rewrite update_note_unfold. cbv zeta. fold absolute_path. rewrite Hfs.
  destruct (read_file_world absolute_path self w)
    as (r & self1 & w1 & -> & Hfs1 & Hck & Hvp & _ & Hr).
  rewrite Hfs in Hr. unfold text_read in Hr. simpl in Hr.
  assert (Hr' : r = Some existing).
  { destruct r as [e|].
    - destruct Hr as [_ [(? & _) | (? & ? & _)]]; destruct Hex as [? | (? & ?)];
        congruence.
    - destruct Hr as (_ & ? & ?). destruct Hex as [? | (? & ?)]; congruence. }
  subst r. destruct Hr as [Hcache _]. simpl.
  subst absolute_path. rewrite (relative_to_joinpath _ _ _ Hrel).
  eexists _, _. split; [reflexivity|]. unfold written. simpl.
  rewrite Hfs1, Hck. split; [done|]. split; [done|]. split.
  - rewrite <- Hvp. unfold invalidated. simpl.
    by destruct (_note_list_cache self1) as [[|??]|].
  - rewrite <- Hcache. unfold invalidated. simpl.
    by destruct (_note_list_cache self1) as [[|??]|].
Qed.

(** X3: Without a heading, ['append'] writes the existing content, a newline
    and the new content, and ['prepend'] the new content, a newline and the
    existing content. The existing content is the cached text when the
    path is cached, and otherwise the text of the file as [read_text]
    returns it, every carriage return turned into a newline. *)
Theorem update_note_append_prepend heading_search (p : Path) (text : string)
    (heading : option string) (self : VaultManager) (w : World)
    (ft : option string) (ct mt : Z) (existing : string) :
  let absolute_path := joinpath (vault_path self) p in
  is_absolute p = false ->
  fs w !! absolute_path = Some (MkNode (KFile ft true) ct mt) ->
  (_note_cache self !! absolute_path = Some existing \/
   _note_cache self !! absolute_path = None /\
   universal_newlines <$> ft = Some existing) ->
  truthy heading = None ->
  (exists (self' : VaultManager) (w' : World),
     update_note heading_search p text "append" heading (self, w)
     = (Ok true, (self', w')) /\
     file_text (fs w' !! absolute_path) = Some (existing ++ nl ++ text)) /\
  (exists (self' : VaultManager) (w' : World),
     update_note heading_search p text "prepend" heading (self, w)
     = (Ok true, (self', w')) /\
     file_text (fs w' !! absolute_path) = Some (text ++ nl ++ existing)).
Proof.
  intros absolute_path Hrel Hfs Hex Hh. split.
  - destruct (update_note_succeeds heading_search p text "append" heading self w
                ft ct mt existing Hrel Hfs Hex) as (self' & w' & Hu & Hw & _).
    exists self', w'. split; [done|]. fold absolute_path in Hw.
    rewrite Hw, lookup_insert_eq. unfold new_content_of. by rewrite Hh.
  - destruct (update_note_succeeds heading_search p text "prepend" heading self w
                ft ct mt existing Hrel Hfs Hex) as (self' & w' & Hu & Hw & _).
    exists self', w'. split; [done|]. fold absolute_path in Hw.
    rewrite Hw, lookup_insert_eq. unfold new_content_of. by rewrite Hh.
Qed.

Lemma update_note_append_prepend_witness :
  (exists (self' : VaultManager) (w' : World),
     update_note no_heading note_n "new" "append" (Some "") (fresh_state "old" 100)
     = (Ok true, (self', w')) /\
     file_text (fs w' !! joinpath vault_root note_n) = Some ("old" ++ nl ++ "new")) /\
  (exists (self' : VaultManager) (w' : World),
     update_note no_heading note_n "new" "prepend" (Some "") (fresh_state "old" 100)
     = (Ok true, (self', w')) /\
     file_text (fs w' !! joinpath vault_root note_n) = Some ("new" ++ nl ++ "old")).
Proof.
  apply (update_note_append_prepend no_heading note_n "new" (Some "")
           (VaultManager_init vault_root) (world_with "old" 100)
           (Some "old") 20 20 "old").
  - reflexivity.
  - vm_compute. reflexivity.
  - right. split; reflexivity.
  - reflexivity.
Defined.

(** X4: With a non-empty heading the mode is ignored. When the heading pattern
    matches, the new content is inserted after the match, between two
    newlines; when it does not, a section [## heading] with the new content
    is added at the end of the existing content. The existing content is
    the cached text, or the text of the file with its carriage returns
    turned into newlines. *)
Theorem update_note_heading heading_search (p : Path) (text mode h : string)
    (self : VaultManager) (w : World)
    (ft : option string) (ct mt : Z) (existing : string) :
  let absolute_path := joinpath (vault_path self) p in
  is_absolute p = false ->
  fs w !! absolute_path = Some (MkNode (KFile ft true) ct mt) ->
  (_note_cache self !! absolute_path = Some existing \/
   _note_cache self !! absolute_path = None /\
   universal_newlines <$> ft = Some existing) ->
  h <> "" ->
  exists (self' : VaultManager) (w' : World),
    update_note heading_search p text mode (Some h) (self, w)
    = (Ok true, (self', w')) /\
    file_text (fs w' !! absolute_path)
    = Some match heading_search h existing with
           | Some insert_pos =>
               str_take insert_pos existing ++ nl ++ text ++ nl ++
               str_drop insert_pos existing
           | None => existing ++ nl ++ nl ++ "## " ++ h ++ nl ++ text ++ nl
           end.
Proof.
  intros absolute_path Hrel Hfs Hex Hh.
  destruct (update_note_succeeds heading_search p text mode (Some h) self w
              ft ct mt existing Hrel Hfs Hex) as (self' & w' & Hu & Hw & _).
  exists self', w'. split; [done|]. fold absolute_path in Hw.
  rewrite Hw, lookup_insert_eq. unfold new_content_of, truthy.
  apply String.eqb_neq in Hh. by rewrite Hh.
Qed.

Lemma update_note_heading_witness :
  exists (self' : VaultManager) (w' : World),
    update_note no_heading note_n "new text" "prepend" (Some "NoSuchHeading")
      (fresh_state "old" 100) = (Ok true, (self', w')) /\
    file_text (fs w' !! joinpath vault_root note_n)
    = Some ("old" ++ nl ++ nl ++ "## NoSuchHeading" ++ nl ++ "new text" ++ nl).
Proof.
  apply (update_note_heading no_heading note_n "new text" "prepend" "NoSuchHeading"
           (VaultManager_init vault_root) (world_with "old" 100)
           (Some "old") 20 20 "old").
  - reflexivity.
  - vm_compute. reflexivity.
  - right. split; reflexivity.
  - discriminate.
Defined.

(** X5: An absolute path outside the vault: the file is written, and only then
    [relative_to] raises, so [update_note] returns [False] although the
    file holds the new content, made from the cached text or from the text
    of the file with its carriage returns turned into newlines. *)
Theorem update_note_outside_vault heading_search (p : Path) (text mode : string)
    (heading : option string) (self : VaultManager) (w : World)
    (ft : option string) (ct mt : Z) (existing : string) :
  is_absolute p = true ->
  (is_absolute (vault_path self) = false \/
   strip_prefix (parts (vault_path self)) (parts p) = None) ->
  fs w !! p = Some (MkNode (KFile ft true) ct mt) ->
  (_note_cache self !! p = Some existing \/
   _note_cache self !! p = None /\ universal_newlines <$> ft = Some existing) ->
  exists (self' : VaultManager) (w' : World),
    update_note heading_search p text mode heading (self, w)
    = (Ok false, (self', w')) /\
    file_text (fs w' !! p)
    = Some (new_content_of heading_search existing text mode heading).
Proof.
  intros Habs Hout Hfs Hex.
  rewrite update_note_unfold. cbv zeta.
  assert (Hj : joinpath (vault_path self) p = p) by (unfold joinpath; by rewrite Habs).
  rewrite Hj, Hfs.
  destruct (read_file_world p self w)
    as (r & self1 & w1 & -> & Hfs1 & Hck & Hvp & _ & Hr).
  rewrite Hfs in Hr. unfold text_read in Hr. simpl in Hr.
  assert (Hr' : r = Some existing).
  { destruct r as [e|].
    - destruct Hr as [_ [(? & _) | (? & ? & _)]]; destruct Hex as [? | (? & ?)];
        congruence.
    - destruct Hr as (_ & ? & ?). destruct Hex as [? | (? & ?)]; congruence. }
  subst r. simpl.
  assert (Hraise : forall s, relative_to p (vault_path self) s = (Raise ValueError, s)).
  { intros s. unfold relative_to. rewrite Habs.
    destruct Hout as [-> | ->]; [done|]. by destruct (is_absolute (vault_path self)). }
  rewrite Hraise. eexists _, _. split; [reflexivity|].
  unfold written. simpl. by rewrite lookup_insert_eq.
Qed.

Lemma update_note_outside_vault_witness :
  let p := MkPath true ["tmp"; "x.md"] in
  let w := MkWorld {[ p := MkNode (KFile (Some "old") true) 20 20 ]} 100 0
                   linux_utc in
  exists (self' : VaultManager) (w' : World),
    update_note no_heading p "new" "append" None (VaultManager_init vault_root, w)
    = (Ok false, (self', w')) /\
    file_text (fs w' !! p) = Some (new_content_of no_heading "old" "new" "append" None).
Proof.
  intros p w.
  apply (update_note_outside_vault no_heading p "new" "append" None
           (VaultManager_init vault_root) w (Some "old") 20 20 "old").
  - reflexivity.
  - right. reflexivity.
  - vm_compute. reflexivity.
  - right. split; reflexivity.
Defined.

(** X6: Two updates in a row do not add up. For a relative path that differs
    from its absolute form, the second [update_note] starts from the
    content cached before the first one, so after two appends the file
    holds the original content, as read, and the second addition only. *)
Theorem update_note_twice_loses_first heading_search (p : Path)
    (first second : string) (self : VaultManager) (w : World)
    (ct mt : Z) (raw : string) :
  let absolute_path := joinpath (vault_path self) p in
  let existing := universal_newlines raw in
  is_absolute p = false ->
  absolute_path <> p ->
  fs w !! absolute_path = Some (MkNode (KFile (Some raw) true) ct mt) ->
  _note_cache self !! absolute_path = None ->
  exists (self1 self2 : VaultManager) (w1 w2 : World),
    update_note heading_search p first "append" None (self, w)
    = (Ok true, (self1, w1)) /\
    update_note heading_search p second "append" None (self1, w1)
    = (Ok true, (self2, w2)) /\
    file_text (fs w1 !! absolute_path) = Some (existing ++ nl ++ first) /\
    file_text (fs w2 !! absolute_path) = Some (existing ++ nl ++ second).
Proof.
  intros absolute_path existing Hrel Hne Hfs Hmiss.
  destruct (update_note_succeeds heading_search p first "append" None self w
              (Some raw) ct mt existing Hrel Hfs)
    as (self1 & w1 & Hu1 & Hw1 & Hck1 & Hvp1 & Hc1); [by right|].
  fold absolute_path in Hw1, Hc1.
  assert (Hfs1 : fs w1 !! joinpath (vault_path self1) p
                 = Some (MkNode (KFile (Some (existing ++ nl ++ first)) true)
                                (clock w) (clock w))).
  { rewrite Hvp1. fold absolute_path. by rewrite Hw1, lookup_insert_eq. }
  assert (Hhit : _note_cache self1 !! joinpath (vault_path self1) p = Some existing).
  { rewrite Hvp1. fold absolute_path.
    rewrite Hc1, lookup_del_if_present_ne by done. by rewrite lookup_insert_eq. }
  destruct (update_note_succeeds heading_search p second "append" None self1 w1
              _ _ _ existing Hrel Hfs1)
    as (self2 & w2 & Hu2 & Hw2 & _); [by left|].
  rewrite Hvp1 in Hw2, Hfs1. fold absolute_path in Hw2, Hfs1.
  exists self1, self2, w1, w2. split; [done|]. split; [done|]. split.
  - by rewrite Hfs1.
  - by rewrite Hw2, lookup_insert_eq.
Qed.

Lemma update_note_twice_loses_first_witness :
  exists (self1 self2 : VaultManager) (w1 w2 : World),
    update_note no_heading note_n "first" "append" None (fresh_state "old" 100)
    = (Ok true, (self1, w1)) /\
    update_note no_heading note_n "second" "append" None (self1, w1)
    = (Ok true, (self2, w2)) /\
    file_text (fs w1 !! joinpath vault_root note_n) = Some ("old" ++ nl ++ "first") /\
    file_text (fs w2 !! joinpath vault_root note_n) = Some ("old" ++ nl ++ "second").
Proof.
  apply (update_note_twice_loses_first no_heading note_n "first" "second"
           (VaultManager_init vault_root) (world_with "old" 100) 20 20 "old").
  - reflexivity.
  - vm_compute. discriminate.
  - vm_compute. reflexivity.
  - reflexivity.
Defined.

(** ** [get_note] and [_read_file] *)

(** X7: [get_note] raises nothing. It returns a note exactly when the path is a
    regular file whose content is cached or can be decoded; the note then
    carries the given path, its stem as title, and as content the cached
    text when there is one (whatever the file holds), and otherwise the
    text of the file with every carriage return turned into a newline. In
    every other case it returns [None]. *)
Theorem get_note_result safe_load (p : Path) (self : VaultManager) (w : World) :
  let absolute_path := joinpath (vault_path self) p in
  let source :=
    if is_file (fs w !! absolute_path) then
      match _note_cache self !! absolute_path with
      | Some cached => Some cached
      | None => universal_newlines <$> file_text (fs w !! absolute_path)
      end
    else None in
  exists (r : option VaultNote) (self' : VaultManager) (w' : World),
    get_note safe_load p (self, w) = (Ok r, (self', w')) /\
    fs w' = fs w /\
    match r, source with
    | Some note, Some text =>
        path note = p /\ title note = stem p /\ content note = text /\
        _note_cache self' !! absolute_path = Some text
    | None, None => self' = self
    | _, _ => False
    end.
Proof.
  intros absolute_path source. subst source.
  change (universal_newlines <$> file_text (fs w !! absolute_path))
    with (text_read (fs w !! absolute_path)).
  destruct (get_note_cases safe_load p self w)
    as [(Hf & ->) | [(Hf & t & m & self' & Hc & -> & _ & Hnc & _) |
        [(Hf & t & m & self' & Hc & Ht & -> & _ & Hnc & _) | (Hf & Hc & Ht & ->)]]];
    fold absolute_path in Hf |- *; rewrite Hf.
  - by eexists _, _, _.
  - fold absolute_path in Hc. rewrite Hc. eexists _, _, _.
    split; [reflexivity|]. split; [done|]. simpl. by rewrite Hnc.
  - fold absolute_path in Hc, Ht, Hnc. rewrite Hc, Ht. eexists _, _, _.
    split; [reflexivity|]. split; [done|]. simpl.
    by rewrite Hnc, lookup_insert_eq.
  - fold absolute_path in Hc, Ht. rewrite Hc, Ht. by eexists _, _, _.
Qed.

(** X8: A file that cannot be decoded is never cached: every [get_note] of it
    returns [None], leaves the manager as it was and reads the file once
    more. *)
Theorem get_note_undecodable_rereads safe_load (p : Path) (self : VaultManager)
    (w : World) (wr : bool) (ct mt : Z) :
  let absolute_path := joinpath (vault_path self) p in
  fs w !! absolute_path = Some (MkNode (KFile None wr) ct mt) ->
  _note_cache self !! absolute_path = None ->
  get_note safe_load p (self, w) = (Ok None, (self, one_more_read w)) /\
  get_note safe_load p (self, one_more_read w)
  = (Ok None, (self, one_more_read (one_more_read w))).
Proof.
  intros absolute_path Hfs Hc. subst absolute_path.
  assert (Hstep : forall w0, fs w0 = fs w ->
            get_note safe_load p (self, w0) = (Ok None, (self, one_more_read w0))).
  { intros w0 Hw0.
    destruct (get_note_cases safe_load p self w0)
      as [(Hf & _) | [(_ & t & m & self' & Hc' & _) |
          [(_ & t & m & self' & _ & Ht & _) | (_ & _ & _ & Hg)]]];
      unfold text_read in *; rewrite ?Hw0, ?Hfs in *; simpl in *; congruence. }
  split; apply Hstep; done.
Qed.

Lemma get_note_undecodable_rereads_witness :
  let w := MkWorld {[ joinpath vault_root note_n := MkNode (KFile None true) 20 20 ]}
                   100 0 linux_utc in
  let self := VaultManager_init vault_root in
  get_note safe_load_word note_n (self, w) = (Ok None, (self, one_more_read w)) /\
  get_note safe_load_word note_n (self, one_more_read w)
  = (Ok None, (self, one_more_read (one_more_read w))).
Proof.
  intros w self.
  apply (get_note_undecodable_rereads safe_load_word note_n self w true 20 20).
  - vm_compute. reflexivity.
  - reflexivity.
Defined.

(** ** [invalidate_cache] *)

(** X9: [invalidate_cache] never touches the content cache, the time of the
    listing, the files or the clock. With a path it drops the metadata of
    that path and takes the notes of that path out of the listing, keeping
    the others in order; without a path it empties the metadata cache and
    drops the listing. *)
Theorem invalidate_cache_effect (p : option Path) (self : VaultManager) (w : World) :
  exists self' : VaultManager,
    invalidate_cache p (self, w) = (Ok tt, (self', w)) /\
    _note_cache self' = _note_cache self /\
    _note_list_cache_time self' = _note_list_cache_time self /\
    vault_path self' = vault_path self /\
    _cache_ttl self' = _cache_ttl self /\
    _metadata_cache self'
    = match p with
      | Some p => delete p (_metadata_cache self)
      | None => ∅
      end /\
    _note_list_cache self'
    = match p with
      | Some p =>
          List.filter (fun note => negb (bool_decide (path note = p)))
            <$> _note_list_cache self
      | None => None
      end.
Proof.
  exists (invalidated p self). split; [done|].
  destruct p as [p|]; [|done].
  assert (Hdel : del_if_present p (_metadata_cache self)
                 = delete p (_metadata_cache self)).
  { unfold del_if_present.
    destruct (_metadata_cache self !! p) eqn:Hp; [done|].
    symmetry. by apply delete_id. }
  unfold invalidated. rewrite Hdel.
  destruct (_note_list_cache self) as [[|n l]|] eqn:Hl; simpl; rewrite ?Hl;
    repeat split; done.
Qed.

(** ** Scans of the vault *)



(** ** [get_notes_in_folder] *)

Lemma folder_loop_mapM safe_load (files : list Path) (notes : list VaultNote)
    (self : VaultManager) (w : World) :
  exists (results : list (option VaultNote)) (self' : VaultManager) (w' : World),
    mapM (process_file safe_load) files (self, w) = (Ok results, (self', w')) /\
    folder_loop safe_load files notes (self, w)
    = (Ok (notes ++ omap id results)%list, (self', w')).
Proof.
  revert notes self w. induction files as [|f files IH]; intros notes self w.
  { exists [], self, w. simpl. by rewrite app_nil_r. }
  simpl. unfold process_file at 1, relative_to.
  repeat progress unfold try_except, bind, get_self, raise, ret; simpl.
  destruct (Bool.eqb _ _).
  2:{ destruct (IH notes self w) as (rs & self' & w' & -> & ->).
      by eexists _, _, _. }
  destruct (strip_prefix _ _) as [rest|].
  2:{ destruct (IH notes self w) as (rs & self' & w' & -> & ->).
      by eexists _, _, _. }
  destruct (get_note_scan_step safe_load (MkPath false rest) self w)
    as ([note|] & self1 & w1 & -> & _).
  - destruct (IH (notes ++ [note])%list self1 w1) as (rs & self' & w' & -> & ->).
    eexists _, _, _. split; [reflexivity|]. cbn. by rewrite <- app_assoc.
  - destruct (IH notes self1 w1) as (rs & self' & w' & -> & ->).
    by eexists _, _, _.
Qed.

(** X11: For a folder that the system lets [stat], [get_notes_in_folder]
    raises nothing, stores no listing (the listing of [get_all_notes] and
    its time are as before) and changes no file. Asked for the vault
    itself (the empty relative path) while [get_all_notes] would scan, it
    returns the notes that [get_all_notes] returns, and leaves the manager
    as [get_all_notes] does, up to the stored listing and its time. *)
Theorem get_notes_in_folder_is_scan safe_load (folder_path : Path)
    (self : VaultManager) (w : World) :
  reachable w (joinpath (vault_path self) folder_path) ->
  exists (notes : list VaultNote) (self' : VaultManager) (w' : World),
    get_notes_in_folder safe_load folder_path (self, w) = (Ok notes, (self', w')) /\
    _note_list_cache self' = _note_list_cache self /\
    _note_list_cache_time self' = _note_list_cache_time self /\
    fs w' = fs w /\
    (joinpath (vault_path self) folder_path = vault_path self ->
     _note_list_cache self = None \/
     _cache_ttl self <= clock w - _note_list_cache_time self ->
     get_all_notes safe_load (self, w)
     = (Ok notes,
        (with_note_list_cache_time (clock w') (with_note_list_cache (Some notes) self'),
         w'))).
Proof.
  intros _. unfold get_notes_in_folder, rglob_md.
  repeat progress unfold bind, get_self, now, get_world, put_self, ret.
  cbn [fst snd]. change (fs (self, w).2) with (fs w).
  set (files := List.filter (is_md_below (joinpath (vault_path self) folder_path))
                            (map fst (map_to_list (fs w)))).
  destruct (folder_loop_mapM safe_load files [] self w)
    as (results & self1 & w1 & Hmap & ->).
  destruct (mapM_scan_step (process_file safe_load) files
              (process_file_scan_step safe_load) self w)
    as (rs & self2 & w2 & Hmap' & Hfs & _ & _ & _ & Hl & Ht).
  rewrite Hmap in Hmap'. injection Hmap' as <- <- <-.
  eexists _, _, _. split; [reflexivity|].
  split; [done|]. split; [done|]. split; [done|].
  intros Hroot Hstale. unfold get_all_notes, rglob_md.
  repeat progress unfold bind, get_self, now, get_world, put_self, ret.
  cbn [fst snd].
  assert (Hnone :
    match _note_list_cache self with
    | Some l =>
        if clock w - _note_list_cache_time self <? _cache_ttl self
        then Some l else None
    | None => None
    end = None).
  { destruct (_note_list_cache self); [|done].
    destruct Hstale as [? | Hstale]; [done|].
    apply Z.ltb_ge in Hstale. by rewrite Hstale. }
  rewrite Hnone. change (fs (self, w).2) with (fs w).
  unfold files in Hmap. rewrite Hroot in Hmap. by rewrite Hmap.
Qed.

Lemma get_notes_in_folder_is_scan_witness :
  exists (notes : list VaultNote) (self' : VaultManager) (w' : World),
    get_notes_in_folder safe_load_word (MkPath false []) (fresh_state "old" 100)
    = (Ok notes, (self', w')) /\
    _note_list_cache self' = None /\
    get_all_notes safe_load_word (fresh_state "old" 100)
    = (Ok notes,
       (with_note_list_cache_time (clock w') (with_note_list_cache (Some notes) self'),
        w')).
Proof.
  destruct (get_notes_in_folder_is_scan safe_load_word (MkPath false [])
              (VaultManager_init vault_root) (world_with "old" 100))
    as (notes & self' & w' & Hget & Hl & _ & _ & Hscan).
  - intros H. vm_compute in H. discriminate H.
  - exists notes, self', w'. split; [exact Hget|]. split; [exact Hl|].
    apply Hscan; [reflexivity | left; reflexivity].
Defined.

(** ** [ensure_folder] and [create_note] *)

Lemma mkdir_parents_keeps (refused : Path -> bool) (anchor : bool)
    (above todo : list string) (t : Z) (files : gmap Path Node) (q : Path) :
  (length above + length todo < length (parts q))%nat ->
  fst (mkdir_parents refused anchor above todo t files) !! q = files !! q.
Proof.
  revert above files. induction todo as [|name todo IH]; intros above files Hlen;
    simpl; [done|].
  assert (Hq : MkPath anchor (above ++ [name]) <> q).
  { intros <-. simpl in Hlen. rewrite length_app in Hlen. simpl in Hlen. lia. }
  assert (Hlen' : (length (above ++ [name]) + length todo < length (parts q))%nat).
  { rewrite length_app. simpl in *. lia. }
  destruct (files !! MkPath anchor (above ++ [name])) as [[[ft wr|] ct mt]|] eqn:Hl;
    [done| |].
  - by apply IH.
  - destruct (refused _); [done|]. rewrite IH by done. by rewrite lookup_insert_ne.
Qed.

Lemma mkdir_parents_dir (refused : Path -> bool) (anchor : bool)
    (above todo : list string) (t : Z) (files : gmap Path Node) :
  snd (mkdir_parents refused anchor above todo t files) = true ->
  todo <> [] ->
  exists ct mt,
    fst (mkdir_parents refused anchor above todo t files)
      !! MkPath anchor (above ++ todo)%list = Some (MkNode KDir ct mt).
Proof.
  revert above files. induction todo as [|name todo IH]; intros above files; [done|].
  intros Hm _.
  replace (above ++ name :: todo)%list with ((above ++ [name]) ++ todo)%list
    by by rewrite <- app_assoc.
  simpl in *.
  destruct (files !! MkPath anchor (above ++ [name])) as [[[ft wr|] ct mt]|] eqn:Hl;
    [done| |].
  - destruct todo as [|name' todo]; [|by apply IH].
    simpl. rewrite app_nil_r. eauto.
  - destruct (refused _); [done|].
    destruct todo as [|name' todo]; [|by apply IH].
    simpl. rewrite app_nil_r, lookup_insert_eq. eauto.
Qed.

Lemma mkdir_parents_succeeds (refused : Path -> bool) (anchor : bool)
    (above todo : list string) (t : Z) (files : gmap Path Node) :
  (forall k, (1 <= k <= length todo)%nat ->
     is_file (files !! MkPath anchor (above ++ take k todo)%list) = false /\
     (files !! MkPath anchor (above ++ take k todo)%list = None ->
      refused (MkPath anchor (above ++ take k todo)%list) = false)) ->
  snd (mkdir_parents refused anchor above todo t files) = true.
Proof.
  revert above files. induction todo as [|name todo IH]; intros above files Hno; simpl.
  { done. }
  assert (Hhere : is_file (files !! MkPath anchor (above ++ [name])) = false /\
                  (files !! MkPath anchor (above ++ [name]) = None ->
                   refused (MkPath anchor (above ++ [name])) = false)).
  { apply (Hno 1%nat). simpl. lia. }
  assert (Hnext : forall k, (1 <= k <= length todo)%nat ->
     is_file (files !! MkPath anchor ((above ++ [name]) ++ take k todo)%list) = false /\
     (files !! MkPath anchor ((above ++ [name]) ++ take k todo)%list = None ->
      refused (MkPath anchor ((above ++ [name]) ++ take k todo)%list) = false)).
  { intros k Hk. rewrite <- app_assoc. apply (Hno (S k)). simpl. lia. }
  destruct (files !! MkPath anchor (above ++ [name])) as [[[ft wr|] ct mt]|] eqn:Hl.
  - by destruct Hhere.
  - by apply IH.
  - destruct Hhere as [_ Href]. rewrite (Href eq_refl).
    apply IH. intros k Hk. rewrite lookup_insert_ne; [by apply Hnext|].
    intros [= Heq]. apply (f_equal length) in Heq.
    rewrite !length_app, length_take in Heq. cbn [length] in Heq. lia.
Qed.





Lemma removelast_shorter {A} (l : list A) :
  l <> [] -> S (length (removelast l)) = length l.
Proof.
  induction l as [|x l IH]; [done|]. intros _.
  destruct l as [|y l]; [done|].
  change (removelast (x :: y :: l)) with (x :: removelast (y :: l)).
  cbn [length]. f_equal. by apply IH.
Qed.

(** X13: [create_note] in a vault with a root, for a relative path on whose
    way lies no regular file and no missing folder that the system refuses
    to create, and whose file can be written or is new and may be created:
    the missing folders are created and the file holds the content, after a
    front-matter block when the metadata is not empty. The note returned
    has the given path. When the path was not cached its content is the
    text written as it is read back, front matter included and every
    carriage return turned into a newline; when it was, the cache is not
    invalidated and the note carries the cached content. *)
Theorem create_note_result safe_load yaml_dump (p : Path) (text : string)
    (metadata : option pydict) (self : VaultManager) (w : World) :
  let absolute_path := joinpath (vault_path self) p in
  let full_content := full_content_of yaml_dump text metadata in
  is_absolute p = false ->
  parts p <> [] ->
  parts (vault_path self) <> [] ->
  (forall k, (1 <= k <= length (parts (parent absolute_path)))%nat ->
     is_file (fs w !! MkPath (is_absolute absolute_path)
                             (take k (parts (parent absolute_path)))) = false /\
     (fs w !! MkPath (is_absolute absolute_path)
                     (take k (parts (parent absolute_path))) = None ->
      refuses (os w) SysMkdir
        (MkPath (is_absolute absolute_path)
                (take k (parts (parent absolute_path)))) = false)) ->
  (fs w !! absolute_path = None /\ refuses (os w) SysOpen absolute_path = false \/
   exists ft ct mt, fs w !! absolute_path = Some (MkNode (KFile ft true) ct mt)) ->
  exists (note : VaultNote) (self' : VaultManager) (w' : World),
    create_note safe_load yaml_dump p text metadata (self, w)
    = (Ok (Some note), (self', w')) /\
    file_text (fs w' !! absolute_path) = Some full_content /\
    path note = p /\
    content note = match _note_cache self !! absolute_path with
                   | Some cached => cached
                   | None => universal_newlines full_content
                   end.
Proof.
  intros absolute_path full_content Hrel Hp Hvp Hway Hfile.
  assert (Hparts : parts absolute_path = (parts (vault_path self) ++ parts p)%list).
  { unfold absolute_path, joinpath. by rewrite Hrel. }
  assert (Hne : parts absolute_path <> []).
  { rewrite Hparts. by destruct (parts (vault_path self)). }
  pose proof (removelast_shorter _ Hne) as Hlen.
  assert (Hpne : parts (parent absolute_path) <> []).
  { simpl. intros Hnil. rewrite Hnil in Hlen. simpl in Hlen.
    rewrite Hparts, length_app in Hlen.
    destruct (parts (vault_path self)); [done|]. destruct (parts p); [done|].
    simpl in Hlen. lia. }
  set (outcome := mkdir_parents (refuses (os w) SysMkdir)
                    (is_absolute (parent absolute_path)) []
                    (parts (parent absolute_path)) (clock w) (fs w)).
  assert (Hmk : snd outcome = true).
  { apply mkdir_parents_succeeds. exact Hway. }
  assert (Hkeep : fst outcome !! absolute_path = fs w !! absolute_path).
  { apply mkdir_parents_keeps. simpl in *. lia. }
  destruct (mkdir_parents_dir _ _ _ _ _ _ Hmk Hpne) as (dct & dmt & Hdir).
  assert (Hdir' : fst outcome !! parent absolute_path = Some (MkNode KDir dct dmt))
    by exact Hdir.
  set (w2 := MkWorld (<[absolute_path :=
                         MkNode (KFile (Some full_content) true) (clock w) (clock w)]>
                        (fst outcome)) (clock w) (read_count w) (os w)).
  assert (Hwrite : _write_file absolute_path full_content
                     (self, MkWorld (fst outcome) (clock w) (read_count w) (os w))
                   = (Ok tt, (self, w2))).
  { unfold w2. revert Hkeep Hdir'. generalize (fst outcome). intros files Hkeep Hdir'.
    unfold _write_file, write_text.
    repeat progress unfold bind, get_world, put_world, raise, ret.
    cbn [Datatypes.fst Datatypes.snd fs clock read_count os].
    rewrite Hkeep.
    destruct Hfile as [[-> ->] | (ft & ct & mt & ->)]; [|done]. by rewrite Hdir'. }
  destruct (get_note_outcome safe_load p self w2)
    as (r & self' & w' & Hget & Hfs' & Hr).
  fold absolute_path in Hr.
  assert (Hfile2 : fs w2 !! absolute_path
                   = Some (MkNode (KFile (Some full_content) true) (clock w) (clock w))).
  { unfold w2. simpl. by rewrite lookup_insert_eq. }
  rewrite Hfile2 in Hr. unfold text_read in Hr. simpl in Hr.
  assert (Hcreate : create_note safe_load yaml_dump p text metadata (self, w)
                    = (Ok r, (self', w'))).
  { unfold create_note, ensure_folder, mkdir.
    repeat progress unfold try_except, bind, get_self, get_world, put_world, raise, ret.
    cbn [Datatypes.fst Datatypes.snd].
    fold absolute_path. fold outcome. rewrite Hmk.
    change (match metadata with
            | Some (item :: items) =>
                "---" ++ nl ++ yaml_dump (item :: items) ++ "---" ++ nl ++ text
            | _ => text
            end) with full_content.
    rewrite Hwrite. unfold absolute_path at 1.
    rewrite (relative_to_joinpath _ _ _ Hrel), Hget. done. }
  destruct r as [note|].
  - exists note, self', w'. split; [done|]. split; [by rewrite Hfs', Hfile2|].
    destruct (_note_cache self !! absolute_path); by destruct Hr as (? & ? & ?).
  - by destruct (_note_cache self !! absolute_path).
Qed.

Lemma create_note_result_witness :
  let p := MkPath false ["projects"; "plan.md"] in
  let metadata := Some [(PyStr "Title", PyStr "Plan")] in
  let dump := fun _ : pydict => "Title: Plan" ++ nl in
  exists (note : VaultNote) (self' : VaultManager) (w' : World),
    create_note safe_load_word dump p "body" metadata (fresh_state "old" 100)
    = (Ok (Some note), (self', w')) /\
    file_text (fs w' !! joinpath vault_root p)
    = Some ("---" ++ nl ++ "Title: Plan" ++ nl ++ "---" ++ nl ++ "body") /\
    path note = p /\
    content note = "---" ++ nl ++ "Title: Plan" ++ nl ++ "---" ++ nl ++ "body".
Proof.
  intros p metadata dump.
  apply (create_note_result safe_load_word dump p "body" metadata
           (VaultManager_init vault_root) (world_with "old" 100)).
  - reflexivity.
  - discriminate.
  - discriminate.
  - intros k Hk. simpl in Hk.
    destruct k as [|[|[|[|k]]]]; [lia | split; vm_compute; reflexivity ..| lia].
  - left. split; vm_compute; reflexivity.
Defined.

(** ** Tags *)

Ltac each_char c := destruct c as [[] [] [] [] [] [] [] []].

Lemma lower_alnum_is_alnum (c : ascii) : is_lower_alnum c = true -> is_alnum c = true.
Proof. each_char c; vm_compute; congruence. Qed.

Lemma lower_alnum_not_space (c : ascii) : is_lower_alnum c = true -> is_space c = false.
Proof. each_char c; vm_compute; congruence. Qed.

Lemma lower_alnum_lower (c : ascii) : is_lower_alnum c = true -> lower_char c = c.
Proof. each_char c; vm_compute; congruence. Qed.

Lemma alnum_lower_char (c : ascii) :
  is_alnum (lower_char c) = true -> is_lower_alnum (lower_char c) = true.
Proof. each_char c; vm_compute; congruence. Qed.

Lemma string_app_cons (x : ascii) (a b : string) :
  (String x a ++ b)%string = String x (a ++ b).
Proof. reflexivity. Qed.

Lemma string_app_assoc (a b c : string) : ((a ++ b) ++ c = a ++ (b ++ c))%string.
Proof.
  induction a as [|x a IH]; [done|]. by rewrite !string_app_cons, IH.
Qed.

Lemma string_app_empty (a : string) : (a ++ "")%string = a.
Proof.
  induction a as [|x a IH]; [done|]. by rewrite string_app_cons, IH.
Qed.

Lemma chars_app (a b : string) :
  list_ascii_of_string (a ++ b) = (list_ascii_of_string a ++ list_ascii_of_string b)%list.
Proof. induction a as [|x a IH]; simpl; [done | by rewrite IH]. Qed.

(** The words that [split] gives are not empty, and made of the characters
    that are not white space. *)
Lemma split_ws_words (P : ascii -> Prop) (s word : string) :
  Forall P (list_ascii_of_string word) ->
  Forall (fun c => is_space c = false -> P c) (list_ascii_of_string s) ->
  Forall (fun w => w <> "" /\ Forall P (list_ascii_of_string w)) (split_ws word s).
Proof.
  revert word. induction s as [|c s IH]; intros word Hword Hs; simpl.
  { destruct (String.eqb_spec word ""); by repeat constructor. }
  simpl in Hs. apply Forall_cons in Hs as [Hc Hs].
  destruct (is_space c) eqn:Hsp.
  - destruct (String.eqb_spec word "").
    + apply IH; [constructor | done].
    + constructor; [done|]. apply IH; [constructor | done].
  - apply IH; [|done]. rewrite chars_app. apply Forall_app. split; [done|].
    simpl. repeat constructor. by apply Hc.
Qed.

Lemma sub_non_alnum_lower (in_run : bool) (s : string) :
  Forall (fun c => is_space c = false -> is_lower_alnum c = true)
         (list_ascii_of_string (sub_non_alnum in_run (str_lower s))).
Proof.
  revert in_run. induction s as [|c s IH]; intros in_run; simpl; [constructor|].
  destruct (is_alnum (lower_char c)) eqn:Hc.
  - simpl. constructor; [|done]. intros _. by apply alnum_lower_char.
  - destruct in_run; [done|]. simpl. constructor; [|done]. by vm_compute.
Qed.

Lemma replacements_Some (tag r : string) :
  replacements tag = Some r ->
  tag = "c++" /\ r = "cpp" \/ tag = "c#" /\ r = "csharp" \/ tag = ".net" /\ r = "dotnet".
Proof.
  unfold replacements.
  destruct (String.eqb_spec tag "c++"); [naive_solver|].
  destruct (String.eqb_spec tag "c#"); [naive_solver|].
  destruct (String.eqb_spec tag ".net"); naive_solver.
Qed.

Lemma is_word_decide (w : string) :
  negb (String.eqb w "") && forallb is_lower_alnum (list_ascii_of_string w) = true ->
  is_word w.
Proof.
  intros [Hne Hall]%andb_prop. split.
  - apply negb_true_iff, String.eqb_neq in Hne. done.
  - apply Forall_forall. intros c Hc%list_elem_of_In.
    rewrite forallb_forall in Hall. by apply Hall.
Qed.

Lemma filter_nonempty_words (words : list string) :
  Forall is_word words ->
  List.filter (fun word => negb (String.eqb word "")) words = words.
Proof.
  induction 1 as [|w ws [Hw _] _ IH]; simpl; [done|].
  apply String.eqb_neq in Hw. by rewrite Hw, IH.
Qed.

Lemma normalize_tag_words (tag : string) :
  exists words : list string,
    Forall is_word words /\ normalize_tag tag = String.concat "_" words.
Proof.
  unfold normalize_tag. cbv zeta.
  destruct (replacements _) as [r|] eqn:Hr.
  - exists [r]. split; [|done]. constructor; [|constructor].
    apply replacements_Some in Hr as [[_ ->]|[[_ ->]|[_ ->]]];
      by apply is_word_decide.
  - eexists. split; [|reflexivity].
    assert (Hw : Forall is_word
              (split_ws "" (sub_non_alnum false (str_lower (str_strip tag))))).
    { apply (split_ws_words (fun c => is_lower_alnum c = true));
        [constructor | apply sub_non_alnum_lower]. }
    by rewrite filter_nonempty_words.
Qed.

(** *** Tags that are in snake case already *)

Lemma str_lstrip_id (s : string) :
  Forall (fun c => is_space c = false) (list_ascii_of_string s) -> str_lstrip s = s.
Proof. destruct s as [|c s]; simpl; [done|]. intros [Hc _]%Forall_cons. by rewrite Hc. Qed.

Lemma str_rstrip_id (s : string) :
  Forall (fun c => is_space c = false) (list_ascii_of_string s) -> str_rstrip s = s.
Proof.
  induction s as [|c s IH]; simpl; [done|]. intros [Hc Hs]%Forall_cons.
  rewrite (IH Hs), Hc. by destruct s.
Qed.

Lemma str_lower_id (s : string) :
  Forall (fun c => lower_char c = c) (list_ascii_of_string s) -> str_lower s = s.
Proof.
  induction s as [|c s IH]; simpl; [done|]. intros [Hc Hs]%Forall_cons.
  by rewrite Hc, (IH Hs).
Qed.

Lemma snake_char_not_space (c : ascii) : is_snake_char c = true -> is_space c = false.
Proof. each_char c; vm_compute; congruence. Qed.

Lemma snake_char_lower (c : ascii) : is_snake_char c = true -> lower_char c = c.
Proof. each_char c; vm_compute; congruence. Qed.

Lemma concat_words_chars (words : list string) :
  Forall is_word words ->
  Forall (fun c => is_snake_char c = true)
         (list_ascii_of_string (String.concat "_" words)).
Proof.
  assert (Hword : forall w, is_word w ->
            Forall (fun c => is_snake_char c = true) (list_ascii_of_string w)).
  { intros w [_ Hw]. eapply Forall_impl; [exact Hw|]. intros c Hc.
    unfold is_snake_char. by rewrite Hc. }
  induction 1 as [|w ws Hw Hws IH]; [constructor|].
  destruct ws as [|w2 ws]; [by apply Hword|].
  change (String.concat "_" (w :: w2 :: ws))
    with (w ++ "_" ++ String.concat "_" (w2 :: ws))%string.
  rewrite !chars_app. apply Forall_app. split; [by apply Hword|].
  apply Forall_app. split; [|done]. by repeat constructor.
Qed.

Lemma sub_non_alnum_word (in_run : bool) (w rest : string) :
  Forall (fun c => is_lower_alnum c = true) (list_ascii_of_string w) ->
  sub_non_alnum in_run (w ++ rest) =
  (w ++ sub_non_alnum (if String.eqb w "" then in_run else false) rest)%string.
Proof.
  revert in_run. induction w as [|c w IH]; intros in_run; simpl; [done|].
  intros [Hc Hw]%Forall_cons. rewrite (lower_alnum_is_alnum c Hc), (IH false Hw).
  by destruct (String.eqb w "").
Qed.

Lemma sub_non_alnum_concat (words : list string) (in_run : bool) :
  Forall is_word words ->
  sub_non_alnum in_run (String.concat "_" words) = String.concat " " words.
Proof.
  intros Hws. revert in_run. induction Hws as [|w ws [Hne Hw] Hws IH]; intros in_run;
    [done|].
  apply String.eqb_neq in Hne.
  destruct ws as [|w2 ws].
  - simpl. rewrite <- (string_app_empty w) at 1.
    rewrite (sub_non_alnum_word _ _ _ Hw). simpl. by rewrite string_app_empty.
  - change (String.concat "_" (w :: w2 :: ws))
      with (w ++ "_" ++ String.concat "_" (w2 :: ws))%string.
    change (String.concat " " (w :: w2 :: ws))
      with (w ++ " " ++ String.concat " " (w2 :: ws))%string.
    rewrite (sub_non_alnum_word _ _ _ Hw), Hne.
    change ("_" ++ ?s)%string with (String "_" s).
    cbn [sub_non_alnum append]. change (is_alnum "_") with false. cbv iota.
    by rewrite IH.
Qed.

Lemma split_ws_word (acc w rest : string) :
  Forall (fun c => is_lower_alnum c = true) (list_ascii_of_string w) ->
  split_ws acc (w ++ rest) = split_ws (acc ++ w) rest.
Proof.
  revert acc. induction w as [|c w IH]; intros acc; simpl.
  { by rewrite string_app_empty. }
  intros [Hc Hw]%Forall_cons. rewrite (lower_alnum_not_space c Hc), (IH _ Hw).
  by rewrite string_app_assoc.
Qed.

Lemma split_ws_concat (words : list string) :
  Forall is_word words -> split_ws "" (String.concat " " words) = words.
Proof.
  induction 1 as [|w ws [Hne Hw] Hws IH]; [done|].
  apply String.eqb_neq in Hne.
  destruct ws as [|w2 ws].
  - simpl. rewrite <- (string_app_empty w) at 1.
    rewrite (split_ws_word _ _ _ Hw). change ("" ++ w)%string with w.
    cbn [split_ws]. by rewrite Hne.
  - change (String.concat " " (w :: w2 :: ws))
      with (w ++ " " ++ String.concat " " (w2 :: ws))%string.
    rewrite (split_ws_word _ _ _ Hw). change ("" ++ w)%string with w.
    change (" " ++ ?s)%string with (String " " s).
    cbn [split_ws]. change (is_space " ") with true. cbv iota.
    by rewrite Hne, IH.
Qed.

Lemma replacements_snake (tag : string) :
  Forall (fun c => is_snake_char c = true) (list_ascii_of_string tag) ->
  replacements tag = None.
Proof.
  intros Htag. destruct (replacements tag) as [r|] eqn:Hr; [|done]. exfalso.
  assert (Hb : forallb is_snake_char (list_ascii_of_string tag) = true).
  { apply forallb_forall. intros c Hc%list_elem_of_In.
    by eapply Forall_forall in Htag. }
  apply replacements_Some in Hr as [[-> _]|[[-> _]|[-> _]]]; by vm_compute in Hb.
Qed.

Lemma normalize_tag_concat (words : list string) :
  Forall is_word words ->
  normalize_tag (String.concat "_" words) = String.concat "_" words.
Proof.
  intros Hws. pose proof (concat_words_chars words Hws) as Hchars.
  unfold normalize_tag, str_strip. cbv zeta.
  rewrite str_lstrip_id, str_rstrip_id, str_lower_id, (replacements_snake _ Hchars);
    try (eapply Forall_impl; [exact Hchars|]; intros c Hc;
         by (apply snake_char_not_space || apply snake_char_lower)).
  by rewrite sub_non_alnum_concat, split_ws_concat, filter_nonempty_words.
Qed.

(** X14: The result of [normalize_tag] is in snake case, whatever the tag:
    words of lower-case letters and digits, none of them empty, joined by
    single underscores. Its characters are lower-case letters, digits and
    underscores. *)
Theorem normalize_tag_snake_case (tag : string) :
  snake_case (normalize_tag tag) /\
  Forall (fun c => is_snake_char c = true) (list_ascii_of_string (normalize_tag tag)).
Proof.
  destruct (normalize_tag_words tag) as (words & Hws & ->). split.
  - by exists words.
  - by apply concat_words_chars.
Qed.

(** X15: [normalize_tag] leaves a tag that is in snake case as it is. *)
Theorem normalize_tag_keeps_snake_case (tag : string) :
  snake_case tag -> normalize_tag tag = tag.
Proof. intros (words & Hws & ->). by apply normalize_tag_concat. Qed.

Lemma normalize_tag_keeps_snake_case_witness :
  snake_case "ai_ml_tools" /\ normalize_tag "ai_ml_tools" = "ai_ml_tools".
Proof.
  assert (H : snake_case "ai_ml_tools").
  { exists ["ai"; "ml"; "tools"]. split; [|reflexivity].
    repeat constructor; by vm_compute. }
  split; [exact H | exact (normalize_tag_keeps_snake_case "ai_ml_tools" H)].
Defined.

(** X16: Normalising a tag twice gives what normalising it once gives. *)
Theorem normalize_tag_idempotent (tag : string) :
  normalize_tag (normalize_tag tag) = normalize_tag tag.
Proof.
  destruct (normalize_tag_words tag) as (words & Hws & ->).
  by apply normalize_tag_concat.
Qed.

(** ** [normalize_tags] *)

(** X17: Every tag that [normalize_tags] returns is in snake case, and
    normalising the list once more only drops the empty tags that the
    first pass has left. *)
Theorem normalize_tags_twice (tags : list string) :
  Forall snake_case (normalize_tags tags) /\
  normalize_tags (normalize_tags tags)
  = List.filter (fun tag => negb (String.eqb tag "")) (normalize_tags tags).
Proof.
  unfold normalize_tags.
  set (l := List.filter (fun tag => negb (String.eqb tag "")) tags). split.
  - apply Forall_forall. intros t (tag & -> & _)%list_elem_of_fmap.
    apply normalize_tag_words.
  - set (l' := List.filter _ (map normalize_tag l)).
    assert (Hfix : Forall (fun t => normalize_tag t = t) l').
    { apply Forall_forall. intros t Ht%list_elem_of_In.
      apply filter_In in Ht as [Ht%list_elem_of_In _].
      apply list_elem_of_fmap in Ht as (tag & -> & _).
      destruct (normalize_tag_words tag) as (words & Hws & ->).
      by apply normalize_tag_concat. }
    induction Hfix as [|t ts Ht _ IH]; [done|]. simpl. by rewrite Ht, IH.
Qed.

End VaultExtras.
